(** * securelog: dual MAC forward-secure logger

    A shallow embedding of the Go package [securelog] (logger, stores,
    chain verifiers, trusted server, HTTP verify endpoint) and the
    properties of its specification that were checked against it.

    Conventions of the embedding:
    - [uint64] and [int64] values are [Z]; every wrap-around of the Go
      arithmetic is written out ([u64]).
    - [[]byte] and [[32]byte] are [list byte]; a [[32]byte] value is a list
      of length 32 (the hash functions only produce such lists).
    - Go maps are [gmap]s, an absent key reads as the zero value.
    - [error] is an inductive type; [fmt.Errorf("...: %w", err)] is [EWrap].
    - The operating system never fails: file operations of the file store
      succeed, the only store failures are those the code computes.  The
      one exception is [sqliteTx], the SQLite store on a database that may
      refuse to start a transaction. *)

From Stdlib Require Import ZArith List Lia String.
From Stdlib Require Import Strings.Byte.
From stdpp Require Import base option list gmap strings pretty sorting.

Local Open Scope Z_scope.

Abbreviation bytes := (list byte).

#[global] Instance byte_eq_dec : EqDecision byte := Byte.byte_eq_dec.

(** ** Machine integers and bytes *)

Definition u64 (z : Z) : Z := z mod 2 ^ 64.
Definition u32 (z : Z) : Z := z mod 2 ^ 32.

Definition Z_of_byte (b : byte) : Z := Z.of_N (Byte.to_N b).

(** [byte(z)]: the low eight bits. *)
Definition byte_of_Z (z : Z) : byte :=
  match Byte.of_N (Z.to_N (z mod 256)) with
  | Some b => b
  | None => x00
  end.

(** [binary.BigEndian.PutUint64] and [PutUint32]. *)
Definition PutUint64 (v : Z) : bytes :=
  [ byte_of_Z (Z.shiftr v 56); byte_of_Z (Z.shiftr v 48);
    byte_of_Z (Z.shiftr v 40); byte_of_Z (Z.shiftr v 32);
    byte_of_Z (Z.shiftr v 24); byte_of_Z (Z.shiftr v 16);
    byte_of_Z (Z.shiftr v 8); byte_of_Z v ].

Definition PutUint32 (v : Z) : bytes :=
  [ byte_of_Z (Z.shiftr v 24); byte_of_Z (Z.shiftr v 16);
    byte_of_Z (Z.shiftr v 8); byte_of_Z v ].

(** [binary.BigEndian.Uint64] and [Uint32] on a slice that holds the bytes. *)
Definition be_decode (b : bytes) : Z :=
  fold_left (fun acc x => Z.lor (Z.shiftl acc 8) (Z_of_byte x)) b 0.

Definition Uint64 (b : bytes) : Z := be_decode (take 8 b).
Definition Uint32 (b : bytes) : Z := be_decode (take 4 b).

(** ** crypto/sha256 (FIPS 180-4) *)

Module sha256.

Definition mask32 : Z := 2 ^ 32 - 1.
Definition add32 (x y : Z) : Z := Z.land (x + y) mask32.
Definition rotr (n x : Z) : Z :=
  Z.lor (Z.shiftr x n) (Z.land (Z.shiftl x (32 - n)) mask32).
Definition xor3 (x y z : Z) : Z := Z.lxor (Z.lxor x y) z.

Definition Ch (x y z : Z) : Z :=
  Z.lxor (Z.land x y) (Z.land (Z.lxor x mask32) z).
Definition Maj (x y z : Z) : Z :=
  xor3 (Z.land x y) (Z.land x z) (Z.land y z).
Definition bsig0 (x : Z) : Z := xor3 (rotr 2 x) (rotr 13 x) (rotr 22 x).
Definition bsig1 (x : Z) : Z := xor3 (rotr 6 x) (rotr 11 x) (rotr 25 x).
Definition ssig0 (x : Z) : Z := xor3 (rotr 7 x) (rotr 18 x) (Z.shiftr x 3).
Definition ssig1 (x : Z) : Z := xor3 (rotr 17 x) (rotr 19 x) (Z.shiftr x 10).

(** The constants are the leading 32 fractional bits of the square and
    cube roots of the first primes; they are computed once, here. *)
Definition primes : list Z :=
  [ 2; 3; 5; 7; 11; 13; 17; 19; 23; 29; 31; 37; 41; 43; 47; 53; 59; 61;
    67; 71; 73; 79; 83; 89; 97; 101; 103; 107; 109; 113; 127; 131; 137;
    139; 149; 151; 157; 163; 167; 173; 179; 181; 191; 193; 197; 199; 211;
    223; 227; 229; 233; 239; 241; 251; 257; 263; 269; 271; 277; 281; 283;
    293; 307; 311 ].

Fixpoint cbrt_bits (k : nat) (r n : Z) : Z :=
  match k with
  | O => r
  | S k' =>
      let c := r + 2 ^ Z.of_nat k' in
      cbrt_bits k' (if c * c * c <=? n then c else r) n
  end.

Definition K : list Z :=
  Eval vm_compute in
    map (fun p => Z.land (cbrt_bits 40 0 (p * 2 ^ 96)) mask32) primes.

Record digest := Digest { h0 : Z; h1 : Z; h2 : Z; h3 : Z;
                          h4 : Z; h5 : Z; h6 : Z; h7 : Z }.

Definition init : digest :=
  Eval vm_compute in
    let iv i := Z.land (Z.sqrt (nth i primes 0 * 2 ^ 64)) mask32 in
    Digest (iv 0%nat) (iv 1%nat) (iv 2%nat) (iv 3%nat)
           (iv 4%nat) (iv 5%nat) (iv 6%nat) (iv 7%nat).

(** Message schedule; [win] holds the sixteen latest words, newest first. *)
Fixpoint schedule (n : nat) (win : list Z) : list Z :=
  match n with
  | O => []
  | S n' =>
      let w := add32 (add32 (add32 (ssig1 (nth 1 win 0)) (nth 6 win 0))
                            (ssig0 (nth 14 win 0))) (nth 15 win 0) in
      w :: schedule n' (w :: take 15 win)
  end.

Definition round (r : digest) (kw : Z * Z) : digest :=
  let t1 := add32 (add32 (add32 (add32 (h7 r) (bsig1 (h4 r)))
                                (Ch (h4 r) (h5 r) (h6 r))) (fst kw)) (snd kw) in
  let t2 := add32 (bsig0 (h0 r)) (Maj (h0 r) (h1 r) (h2 r)) in
  Digest (add32 t1 t2) (h0 r) (h1 r) (h2 r)
         (add32 (h3 r) t1) (h4 r) (h5 r) (h6 r).

Definition block (H : digest) (ws : list Z) : digest :=
  let r := fold_left round (combine K (ws ++ schedule 48 (rev ws))) H in
  Digest (add32 (h0 H) (h0 r)) (add32 (h1 H) (h1 r))
         (add32 (h2 H) (h2 r)) (add32 (h3 H) (h3 r))
         (add32 (h4 H) (h4 r)) (add32 (h5 H) (h5 r))
         (add32 (h6 H) (h6 r)) (add32 (h7 H) (h7 r)).

Fixpoint words (n : nat) (b : bytes) : list Z :=
  match n with
  | O => []
  | S n' => Uint32 b :: words n' (drop 4 b)
  end.

Fixpoint blocks (n : nat) (b : bytes) (H : digest) : digest :=
  match n with
  | O => H
  | S n' => blocks n' (drop 64 b) (block H (words 16 (take 64 b)))
  end.

Definition pad (data : bytes) : bytes :=
  let len := Z.of_nat (length data) in
  data ++ x80 :: repeat x00 (Z.to_nat ((55 - len) mod 64))
       ++ PutUint64 (u64 (8 * len)).

Definition checkSum (H : digest) : bytes :=
  PutUint32 (h0 H) ++ PutUint32 (h1 H) ++ PutUint32 (h2 H)
    ++ PutUint32 (h3 H) ++ PutUint32 (h4 H) ++ PutUint32 (h5 H)
    ++ PutUint32 (h6 H) ++ PutUint32 (h7 H).

(** [sha256.Sum256(data)]. *)
Definition Sum256 (data : bytes) : bytes :=
  let p := pad data in
  checkSum (blocks (length p / 64)%nat p init).

(** The streaming interface [sha256.New()], [Write], [Sum(nil)]. *)
Definition New : bytes := [].
Definition Write (h : bytes) (p : bytes) : bytes := h ++ p.
Definition Sum (h : bytes) : bytes := Sum256 h.

End sha256.

(** ** crypto/hmac (RFC 2104) over SHA-256 *)

Module hmac.

Definition blocksize : nat := 64.

Definition xor_with (c : Z) (k : bytes) : bytes :=
  map (fun b => byte_of_Z (Z.lxor (Z_of_byte b) c)) k.

Record hash := Hash { ipad : bytes; opad : bytes; written : bytes }.

(** [hmac.New(sha256.New, key)]. *)
Definition New (key : bytes) : hash :=
  let k := if (blocksize <? length key)%nat then sha256.Sum256 key else key in
  let k := k ++ repeat x00 (blocksize - length k) in
  Hash (xor_with 54 k) (xor_with 92 k) [].

Definition Write (h : hash) (p : bytes) : hash :=
  Hash (ipad h) (opad h) (written h ++ p).

Definition Sum (h : hash) : bytes :=
  sha256.Sum256 (opad h ++ sha256.Sum256 (ipad h ++ written h)).

(** [subtle.ConstantTimeCompare(x, y) == 1], which is [hmac.Equal]. *)
Definition Equal (x y : bytes) : bool :=
  if negb (length x =? length y)%nat then false
  else
    fold_left (fun v xy => Z.lor v (Z.lxor (Z_of_byte (fst xy)) (Z_of_byte (snd xy))))
              (combine x y) 0 =? 0.

End hmac.

(** ** Errors

    [error] values of the package: the sentinels, [errors.New] texts,
    [fmt.Errorf] texts with their arguments, and [%w] wrapping. *)

Inductive error : Type :=
  | ErrGap
  | ErrTagMismatch
  | ErrLogAlreadyClosed
  | ErrLogNotClosed
  | ErrEOF                                   (* io.EOF *)
  | ErrUnexpectedEOF                         (* io.ErrUnexpectedEOF *)
  | ENew (msg : string)                      (* errors.New(msg) *)
  | ENonContiguous (have got : Z)            (* "non-contiguous append: have %d, got %d" *)
  | EInvalidSize (field : string) (got : nat)(* "invalid <field> size: expected 32, got %d" *)
  | ERecord (i : nat) (e : error)            (* "record %d: %w" *)
  | EWrap (prefix : string) (e : error).     (* "<prefix>: %w" *)

#[global] Instance error_eq_dec : EqDecision error.
Proof. solve_decision. Defined.

(** [err.Error()]. *)
Fixpoint Error (e : error) : string :=
  match e with
  | ErrGap => "gap or reordering detected"
  | ErrTagMismatch => "tag mismatch: tampering or wrong key"
  | ErrLogAlreadyClosed => "log has been closed"
  | ErrLogNotClosed => "log has not been closed yet"
  | ErrEOF => "EOF"
  | ErrUnexpectedEOF => "unexpected EOF"
  | ENew msg => msg
  | ENonContiguous have got =>
      "non-contiguous append: have " +:+ pretty have +:+ ", got " +:+ pretty got
  | EInvalidSize field got =>
      "invalid " +:+ field +:+ " size: expected 32, got " +:+ pretty got
  | ERecord i e => "record " +:+ pretty i +:+ ": " +:+ Error e
  | EWrap prefix e => prefix +:+ ": " +:+ Error e
  end.

(** [errors.Is(err, target)] for a sentinel [target]. *)
Fixpoint errors_Is (e target : error) : bool :=
  if decide (e = target) then true
  else match e with
       | EWrap _ e' | ERecord _ e' => errors_Is e' target
       | _ => false
       end.

(** ** Data model (securelog.go) *)

Definition KeySize : nat := 32.

(** The zero value of [[32]byte]. *)
Definition zero32 : bytes := repeat x00 32.

Module Entry.
Record t := mk { Index : Z; TS : Z; Msg : bytes; Tag : bytes }.
Definition zero : t := mk 0 0 [] zero32.
End Entry.

(** The Go type [Record]. *)
Module Rec.
Record t := mk { Index : Z; TS : Z; Msg : bytes; TagV : bytes; TagT : bytes }.
Definition zero : t := mk 0 0 [] zero32 zero32.
End Rec.

Module TailState.
Record t := mk { Index : Z; TagV : bytes; TagT : bytes }.
Definition zero : t := mk 0 zero32 zero32.
End TailState.

Module Anchor.
Record t := mk { Index : Z; Key : bytes; TagV : bytes; TagT : bytes }.
Definition zero : t := mk 0 zero32 zero32 zero32.
End Anchor.

Module Config.
Record t := mk { AnchorEvery : Z;
                 InitialKeyV : option bytes;
                 InitialKeyT : option bytes }.
End Config.

#[global] Instance Entry_eq_dec : EqDecision Entry.t.
Proof. solve_decision. Defined.
#[global] Instance Rec_eq_dec : EqDecision Rec.t.
Proof. solve_decision. Defined.
#[global] Instance TailState_eq_dec : EqDecision TailState.t.
Proof. solve_decision. Defined.
#[global] Instance Anchor_eq_dec : EqDecision Anchor.t.
Proof. solve_decision. Defined.

(** ** Helper functions (protocol.go) *)

(** [htag] computes H(tag), used to initialise the aggregate. *)
Definition htag (tag : bytes) : bytes := sha256.Sum256 tag.

Definition isZero32 (x : bytes) : bool :=
  fold_left (fun acc b => Z.lor acc (Z_of_byte b)) x 0 =? 0.

(** [fwdKey] evolves a key in place; the model returns the new contents. *)
Definition fwdKey (k : bytes) : bytes := sha256.Sum256 k.

Definition mac (key : bytes) (chunks : list bytes) : bytes :=
  hmac.Sum (fold_left hmac.Write chunks (hmac.New key)).

Definition fold (prev mac : bytes) : bytes :=
  sha256.Sum (sha256.Write (sha256.Write sha256.New prev) mac).

(** ** Chain verification (verify.go) *)

Definition constantTimeEqual (a b : bytes) : bool :=
  if negb (length a =? length b)%nat then false
  else
    fold_left (fun result ab =>
                 Z.lor result (Z.lxor (Z_of_byte (fst ab)) (Z_of_byte (snd ab))))
              (combine a b) 0 =? 0.

(** The loop of [VerifyChain]; its variables are the arguments. *)
Fixpoint VerifyChain_loop (records : list Rec.t) (key prev : bytes)
    (expect : Z) (lastTag : bytes) (useVerifierChain : bool)
    : bytes * option error :=
  match records with
  | [] => (lastTag, None)
  | r :: records' =>
      let expect := u64 (expect + 1) in
      if negb (Rec.Index r =? expect) then (lastTag, Some ErrGap)
      else
        let key := sha256.Sum256 key in
        let idx := PutUint64 (Rec.Index r) in
        let tsb := PutUint64 (u64 (Rec.TS r)) in
        let macVal := mac key [idx; tsb; Rec.Msg r] in
        let tag := if isZero32 prev then htag macVal else fold prev macVal in
        let stored := if useVerifierChain then Rec.TagV r else Rec.TagT r in
        if negb (constantTimeEqual tag stored) then (lastTag, Some ErrTagMismatch)
        else VerifyChain_loop records' key tag expect tag useVerifierChain
  end.

Definition VerifyChain (records : list Rec.t) (startIdx : Z)
    (kStart tStart : bytes) (useVerifierChain : bool) : bytes * option error :=
  VerifyChain_loop records kStart tStart startIdx zero32 useVerifierChain.

Definition VerifyFrom (records : list Rec.t) (startIdx : Z)
    (kStart tStart : bytes) : bytes * option error :=
  VerifyChain records startIdx kStart tStart true.

Definition VerifyFromTrusted (records : list Rec.t) (startIdx : Z)
    (kStart tStart : bytes) : bytes * option error :=
  VerifyChain records startIdx kStart tStart false.

(** ** The [Store] interface (securelog.go)

    [Iter] hands back a channel; the model returns the records the channel
    delivers before it is closed. *)

Class Store (S : Type) := {
  store_Append : S -> Rec.t -> TailState.t -> option Anchor.t -> S * option error;
  store_Iter : S -> Z -> list Rec.t * option error;
  store_AnchorAt : S -> Z -> Anchor.t * bool * option error;
  store_ListAnchors : S -> list Anchor.t * option error;
  store_Tail : S -> TailState.t * bool * option error
}.

(** ** The file store (file_store.go)

    The state is the contents of the three files.  File offsets are not
    part of it: [logs.dat] is opened with [O_APPEND], the anchor file is
    positioned at its end before each write, the tail file is truncated
    before each write, and every read seeks to the start first. *)

Module fileStore.

Record t := mk { logFile : bytes; anchorFile : bytes; tailFile : bytes }.

(** [OpenFileStore] on a directory without the three files. *)
Definition empty : t := mk [] [] [].

Definition headerSize : Z := 8 + 8 + 4.
Definition tagsSize : Z := 32 + 32.
Definition anchorEntrySize : nat := 8 + 32 + 32 + 32.
Definition tailEntrySize : nat := 8 + 32 + 32.

(** The buffer [writeRecordLocked] builds.  [msgLen] is a [uint32]; the
    message area of the buffer receives the first [msgLen] bytes. *)
Definition recordBytes (r : Rec.t) : bytes :=
  let msgLen := u32 (Z.of_nat (length (Rec.Msg r))) in
  PutUint64 (Rec.Index r) ++ PutUint64 (u64 (Rec.TS r)) ++ PutUint32 msgLen
    ++ take (Z.to_nat msgLen) (Rec.Msg r) ++ Rec.TagV r ++ Rec.TagT r.

Definition writeRecordLocked (s : t) (r : Rec.t) : t :=
  mk (logFile s ++ recordBytes r) (anchorFile s) (tailFile s).

Definition anchorBytes (a : Anchor.t) : bytes :=
  PutUint64 (Anchor.Index a) ++ Anchor.Key a ++ Anchor.TagV a ++ Anchor.TagT a.

Definition writeAnchorLocked (s : t) (a : Anchor.t) : t :=
  mk (logFile s) (anchorFile s ++ anchorBytes a) (tailFile s).

Definition tailBytes (tail : TailState.t) : bytes :=
  PutUint64 (TailState.Index tail) ++ TailState.TagV tail ++ TailState.TagT tail.

Definition writeTailLocked (s : t) (tail : TailState.t) : t :=
  mk (logFile s) (anchorFile s) (tailBytes tail).

(** The scan of [getLastIndexLocked]; [reader] is what is left to read.
    Every round consumes at least 84 bytes, so the length of the file
    bounds the number of rounds. *)
Fixpoint getLastIndex_loop (fuel : nat) (reader : bytes) (lastIdx : Z)
    : Z * option error :=
  match fuel with
  | O => (lastIdx, None)
  | S fuel' =>
      if (length reader =? 0)%nat then (lastIdx, None)
      else if (length reader <? 8)%nat
      then (0, Some (EWrap "read index" ErrUnexpectedEOF))
      else
        let lastIdx := Uint64 reader in
        let reader := drop 8 reader in
        if (length reader <? 8)%nat
        then (0, Some (EWrap "skip timestamp" ErrEOF))
        else
          let reader := drop 8 reader in
          if (length reader =? 0)%nat
          then (0, Some (EWrap "read msg length" ErrEOF))
          else if (length reader <? 4)%nat
          then (0, Some (EWrap "read msg length" ErrUnexpectedEOF))
          else
            let msgLen := Uint32 reader in
            let reader := drop 4 reader in
            let skipSize := msgLen + tagsSize in
            if Z.of_nat (length reader) <? skipSize
            then (0, Some (EWrap "skip msg and tags" ErrEOF))
            else getLastIndex_loop fuel' (drop (Z.to_nat skipSize) reader) lastIdx
  end.

Definition getLastIndexLocked (s : t) : Z * option error :=
  if (length (logFile s) =? 0)%nat then (0, None)
  else getLastIndex_loop (length (logFile s)) (logFile s) 0.

Definition Append (s : t) (r : Rec.t) (tail : TailState.t)
    (anchor : option Anchor.t) : t * option error :=
  match getLastIndexLocked s with
  | (_, Some err) => (s, Some err)
  | (lastIdx, None) =>
      if negb (lastIdx =? u64 (Rec.Index r - 1))
      then (s, Some (ENonContiguous lastIdx (Rec.Index r)))
      else
        let s := writeRecordLocked s r in
        let s := match anchor with
                 | Some a => writeAnchorLocked s a
                 | None => s
                 end in
        (writeTailLocked s tail, None)
  end.

(** The reading goroutine of [Iter]: it stops at the first short read. *)
Fixpoint Iter_loop (fuel : nat) (reader : bytes) (startIdx : Z) : list Rec.t :=
  match fuel with
  | O => []
  | S fuel' =>
      if (length reader <? 8)%nat then []
      else
        let idx := Uint64 reader in
        let reader := drop 8 reader in
        if (length reader <? 8)%nat then []
        else
          let u := Uint64 reader in
          let ts := if u <? 2 ^ 63 then u else u - 2 ^ 64 in
          let reader := drop 8 reader in
          if (length reader <? 4)%nat then []
          else
            let msgLen := Z.to_nat (Uint32 reader) in
            let reader := drop 4 reader in
            if (length reader <? msgLen)%nat then []
            else
              let msg := take msgLen reader in
              let reader := drop msgLen reader in
              if (length reader <? 32)%nat then []
              else
                let tagV := take 32 reader in
                let reader := drop 32 reader in
                if (length reader <? 32)%nat then []
                else
                  let tagT := take 32 reader in
                  let reader := drop 32 reader in
                  let rest := Iter_loop fuel' reader startIdx in
                  if startIdx <=? idx
                  then Rec.mk idx ts msg tagV tagT :: rest
                  else rest
  end.

Definition Iter (s : t) (startIdx : Z) : list Rec.t * option error :=
  (Iter_loop (length (logFile s)) (logFile s) startIdx, None).

Definition parseAnchor (buf : bytes) : Anchor.t :=
  Anchor.mk (Uint64 buf) (take 32 (drop 8 buf)) (take 32 (drop 40 buf))
            (take 32 (drop 72 buf)).

Fixpoint readAnchor_loop (fuel : nat) (reader : bytes) (targetIdx : Z)
    : Anchor.t * bool * option error :=
  match fuel with
  | O => (Anchor.zero, false, None)
  | S fuel' =>
      if (length reader =? 0)%nat then (Anchor.zero, false, None)
      else if (length reader <? anchorEntrySize)%nat
      then (Anchor.zero, false, Some (EWrap "read anchor" ErrUnexpectedEOF))
      else
        let buf := take anchorEntrySize reader in
        if Uint64 buf =? targetIdx then (parseAnchor buf, true, None)
        else readAnchor_loop fuel' (drop anchorEntrySize reader) targetIdx
  end.

Definition AnchorAt (s : t) (i : Z) : Anchor.t * bool * option error :=
  readAnchor_loop (S (length (anchorFile s))) (anchorFile s) i.

Fixpoint ListAnchors_loop (fuel : nat) (reader : bytes) (anchors : list Anchor.t)
    : list Anchor.t * option error :=
  match fuel with
  | O => (anchors, None)
  | S fuel' =>
      if (length reader =? 0)%nat then (anchors, None)
      else if (length reader <? anchorEntrySize)%nat
      then ([], Some (EWrap "read anchor" ErrUnexpectedEOF))
      else ListAnchors_loop fuel' (drop anchorEntrySize reader)
             (anchors ++ [parseAnchor (take anchorEntrySize reader)])
  end.

Definition ListAnchors (s : t) : list Anchor.t * option error :=
  ListAnchors_loop (S (length (anchorFile s))) (anchorFile s) [].

Definition readTailLocked (s : t) : TailState.t * bool * option error :=
  if (length (tailFile s) <? tailEntrySize)%nat then (TailState.zero, false, None)
  else
    let buf := take tailEntrySize (tailFile s) in
    (TailState.mk (Uint64 buf) (take 32 (drop 8 buf)) (take 32 (drop 40 buf)),
     true, None).

Definition Tail (s : t) : TailState.t * bool * option error := readTailLocked s.

End fileStore.

#[global] Instance fileStore_Store : Store fileStore.t := {|
  store_Append := fileStore.Append;
  store_Iter := fileStore.Iter;
  store_AnchorAt := fileStore.AnchorAt;
  store_ListAnchors := fileStore.ListAnchors;
  store_Tail := fileStore.Tail
|}.

(** ** The SQLite store (sqlite_store.go)

    The state is the contents of the three tables; [idx] is the primary
    key of [logs] and of [anchors], [tail] holds at most the row [id=1].
    Every [Append] runs in one transaction: on an error the deferred
    [Rollback] leaves the tables as they were. *)

Module sqliteStore.

Record logRow := LogRow { ts : Z; msg : bytes; tagV : bytes; tagT : bytes }.
Record tailRow := TailRow { tail_idx : Z; tail_tagV : bytes; tail_tagT : bytes }.
Record anchorRow := AnchorRow { key : bytes; anchor_tagV : bytes; anchor_tagT : bytes }.

Record t := mk { logs : gmap Z logRow;
                 tail : option tailRow;
                 anchors : gmap Z anchorRow }.

(** [OpenSQLiteStore] on a new database. *)
Definition empty : t := mk ∅ None ∅.

(** database/sql hands a [uint64] argument to the driver as an [int64]
    and refuses one with the high bit set. *)
Definition arg_uint64 (v : Z) : Z + error :=
  if v <? 2 ^ 63 then inl v
  else inr (ENew "sql: converting argument type: uint64 values with high bit set are not supported").

(** [Scan] of an [int64] column into a [uint64] destination. *)
Definition scan_uint64 (v : Z) : Z + error :=
  if 0 <=? v then inl v
  else inr (ENew "sql: Scan error: converting driver.Value type int64 to a uint64: invalid syntax").

(** [copy(dst[:], src)] into a zeroed [[32]byte]. *)
Definition copy32 (src : bytes) : bytes := take 32 (src ++ zero32).

(** [SELECT COALESCE(MAX(idx),0) FROM logs]. *)
Definition max_idx (logs : gmap Z logRow) : Z :=
  match (map_to_list logs).*1 with
  | [] => 0
  | k :: ks => foldr Z.max k ks
  end.

Definition Append (s : t) (r : Rec.t) (tail : TailState.t)
    (anchor : option Anchor.t) : t * option error :=
  let maxIdx := max_idx (logs s) in
  if negb (u64 maxIdx =? u64 (Rec.Index r - 1))
  then (s, Some (ENonContiguous maxIdx (Rec.Index r)))
  else
    match arg_uint64 (Rec.Index r) with
    | inr err => (s, Some err)
    | inl idx =>
        match logs s !! idx with
        | Some _ => (s, Some (ENew "constraint failed: UNIQUE constraint failed: logs.idx"))
        | None =>
            let logs' := <[idx := LogRow (Rec.TS r) (Rec.Msg r) (Rec.TagV r) (Rec.TagT r)]> (logs s) in
            let anchors' :=
              match anchor with
              | None => inl (anchors s)
              | Some a =>
                  match arg_uint64 (Anchor.Index a) with
                  | inr err => inr err
                  | inl ai =>
                      inl (<[ai := AnchorRow (Anchor.Key a) (Anchor.TagV a) (Anchor.TagT a)]>
                             (anchors s))
                  end
              end in
            match anchors' with
            | inr err => (s, Some err)
            | inl anchors' =>
                match arg_uint64 (TailState.Index tail) with
                | inr err => (s, Some err)
                | inl ti =>
                    (mk logs' (Some (TailRow ti (TailState.TagV tail) (TailState.TagT tail)))
                        anchors', None)
                end
            end
        end
    end.

Definition by_idx {A} (x y : Z * A) : Prop := x.1 ≤ y.1.

#[global] Instance by_idx_dec {A} (x y : Z * A) : Decision (by_idx x y).
Proof. unfold by_idx. apply _. Defined.

(** The rows the goroutine of [Iter] sends before a [Scan] error. *)
Fixpoint Iter_rows (rows : list (Z * logRow)) : list Rec.t :=
  match rows with
  | [] => []
  | (i, row) :: rows' =>
      match scan_uint64 i with
      | inr _ => []
      | inl idx =>
          Rec.mk idx (ts row) (msg row) (copy32 (tagV row)) (copy32 (tagT row))
            :: Iter_rows rows'
      end
  end.

(** [SELECT ... FROM logs WHERE idx >= ? ORDER BY idx ASC]. *)
Definition Iter (s : t) (startIdx : Z) : list Rec.t * option error :=
  match arg_uint64 startIdx with
  | inr err => ([], Some err)
  | inl start =>
      (Iter_rows (merge_sort by_idx
                    (filter (fun kv => start ≤ kv.1) (map_to_list (logs s)))), None)
  end.

Definition AnchorAt (s : t) (i : Z) : Anchor.t * bool * option error :=
  match arg_uint64 i with
  | inr err => (Anchor.zero, false, Some err)
  | inl i' =>
      match anchors s !! i' with
      | None => (Anchor.zero, false, None)
      | Some row =>
          if negb (length (key row) =? KeySize)%nat
             || negb (length (anchor_tagV row) =? 32)%nat
             || negb (length (anchor_tagT row) =? 32)%nat
          then (Anchor.zero, false, Some (ENew "invalid anchor sizes"))
          else (Anchor.mk (u64 i') (copy32 (key row)) (copy32 (anchor_tagV row))
                          (copy32 (anchor_tagT row)), true, None)
      end
  end.

Fixpoint ListAnchors_rows (rows : list (Z * anchorRow)) (out : list Anchor.t)
    : list Anchor.t * option error :=
  match rows with
  | [] => (out, None)
  | (i, row) :: rows' =>
      match scan_uint64 i with
      | inr err => ([], Some err)
      | inl idx =>
          if negb (length (key row) =? KeySize)%nat
             || negb (length (anchor_tagV row) =? 32)%nat
             || negb (length (anchor_tagT row) =? 32)%nat
          then ListAnchors_rows rows' out
          else ListAnchors_rows rows'
                 (out ++ [Anchor.mk idx (copy32 (key row)) (copy32 (anchor_tagV row))
                                    (copy32 (anchor_tagT row))])
      end
  end.

Definition ListAnchors (s : t) : list Anchor.t * option error :=
  ListAnchors_rows (merge_sort by_idx (map_to_list (anchors s))) [].

Definition Tail (s : t) : TailState.t * bool * option error :=
  match tail s with
  | None => (TailState.zero, false, None)
  | Some row =>
      if negb (length (tail_tagV row) =? 32)%nat
         || negb (length (tail_tagT row) =? 32)%nat
      then (TailState.zero, false, Some (ENew "invalid tail sizes"))
      else (TailState.mk (u64 (tail_idx row)) (copy32 (tail_tagV row))
                         (copy32 (tail_tagT row)), true, None)
  end.

End sqliteStore.

#[global] Instance sqliteStore_Store : Store sqliteStore.t := {|
  store_Append := sqliteStore.Append;
  store_Iter := sqliteStore.Iter;
  store_AnchorAt := sqliteStore.AnchorAt;
  store_ListAnchors := sqliteStore.ListAnchors;
  store_Tail := sqliteStore.Tail
|}.

(** ** The logger (securelog.go)

    The [Logger] struct holds a [Store] handle; the model keeps the fields
    of the struct in [Logger.t] and threads the state of the store next to
    it.  A [time.Time] argument is given by its [UnixNano()] value. *)

Module Logger.
Record t := mk { cfg : Config.t; i : Z; keyV : bytes; keyT : bytes;
                 tagV : bytes; tagT : bytes }.
End Logger.

#[global] Instance Config_eq_dec : EqDecision Config.t.
Proof. solve_decision. Defined.
#[global] Instance Logger_eq_dec : EqDecision Logger.t.
Proof. solve_decision. Defined.

(** [New]; [randV] and [randT] are what [rand.Read] delivers for the key
    that the configuration leaves open ([None] when the read fails). *)
Definition New (cfg : Config.t) (randV randT : option bytes)
    : option Logger.t * option error :=
  match (match Config.InitialKeyV cfg with Some k => Some k | None => randV end) with
  | None => (None, Some (ENew "crypto/rand: read failed"))
  | Some a0 =>
      match (match Config.InitialKeyT cfg with Some k => Some k | None => randT end) with
      | None => (None, Some (ENew "crypto/rand: read failed"))
      | Some b0 => (Some (Logger.mk cfg 0 a0 b0 zero32 zero32), None)
      end
  end.

(** The part of [Append] before the store is called: the logger with [i]
    advanced and both keys evolved, and the record, tail state and anchor
    that are handed to the store. *)
Definition Append_prepare (l : Logger.t) (msg : bytes) (ts : Z)
    : Logger.t * Rec.t * TailState.t * option Anchor.t :=
  let i := u64 (Logger.i l + 1) in
  let keyV := fwdKey (Logger.keyV l) in
  let keyT := fwdKey (Logger.keyT l) in
  let idx := PutUint64 i in
  let tsb := PutUint64 (u64 ts) in
  let macV := mac keyV [idx; tsb; msg] in
  let macT := mac keyT [idx; tsb; msg] in
  let first := (i =? 1) && isZero32 (Logger.tagV l) && isZero32 (Logger.tagT l) in
  let tagV := if first then htag macV else fold (Logger.tagV l) macV in
  let tagT := if first then htag macT else fold (Logger.tagT l) macT in
  let rec := Rec.mk i ts msg tagV tagT in
  let every := Config.AnchorEvery (Logger.cfg l) in
  let anchor := if negb (every =? 0) && (i mod every =? 0)
                then Some (Anchor.mk i keyV tagV tagT)
                else None in
  let tail := TailState.mk i tagV tagT in
  (Logger.mk (Logger.cfg l) i keyV keyT (Logger.tagV l) (Logger.tagT l),
   rec, tail, anchor).

Section WithStore.
Context {St : Type} `{Store St}.

Definition Append (l : Logger.t) (st : St) (msg : bytes) (ts : Z)
    : Logger.t * St * (Entry.t * option error) :=
  let '(l1, rec, tail, anchor) := Append_prepare l msg ts in
  match store_Append st rec tail anchor with
  | (st', Some err) =>
      (Logger.mk (Logger.cfg l1) (u64 (Logger.i l1 - 1)) (Logger.keyV l1)
                 (Logger.keyT l1) (Logger.tagV l1) (Logger.tagT l1),
       st', (Entry.zero, Some err))
  | (st', None) =>
      (Logger.mk (Logger.cfg l1) (Logger.i l1) (Logger.keyV l1) (Logger.keyT l1)
                 (Rec.TagV rec) (Rec.TagT rec),
       st',
       (Entry.mk (Rec.Index rec) (Rec.TS rec) (Rec.Msg rec) (Rec.TagV rec), None))
  end.

Definition Close (l : Logger.t) (st : St) (ts : Z) :=
  Append l st (list_byte_of_string "CLOSE") ts.

End WithStore.

Definition LastState (l : Logger.t) : Z * bytes * bytes :=
  (Logger.i l, Logger.tagV l, Logger.tagT l).

Definition GetInitialKeys (l : Logger.t) : bytes * bytes :=
  (Logger.keyV l, Logger.keyT l).

(** ** The three-phase protocol (protocol.go) *)

Module InitCommitment.
Record t := mk { LogID : string; StartTime : Z; KeyA0 : bytes; KeyB0 : bytes;
                 UpdateFreq : Z }.
Definition zero : t := mk "" 0 zero32 zero32 0.
End InitCommitment.

Module OpenMessage.
Record t := mk { LogID : string; OpenTime : Z; FirstIndex : Z;
                 FirstTagV : bytes; FirstTagT : bytes }.
Definition zero : t := mk "" 0 0 zero32 zero32.
End OpenMessage.

Module CloseMessage.
Record t := mk { LogID : string; CloseTime : Z; FinalIndex : Z;
                 FinalTagV : bytes; FinalTagT : bytes }.
Definition zero : t := mk "" 0 0 zero32 zero32.
End CloseMessage.

Definition keyUpdateFrequency : Z := 1.

Section ProtocolWithStore.
Context {St : Type} `{Store St}.

(** [now] is the value of [time.Now()]. *)
Definition InitProtocol (l : Logger.t) (st : St) (logID : string) (now : Z)
    : Logger.t * St * (InitCommitment.t * OpenMessage.t * option error) :=
  let commit := InitCommitment.mk logID now (Logger.keyV l) (Logger.keyT l)
                                  keyUpdateFrequency in
  match Append l st (list_byte_of_string "START") now with
  | (l', st', (_, Some err)) =>
      (l', st', (InitCommitment.zero, OpenMessage.zero, Some err))
  | (l', st', (entry, None)) =>
      let '(_, tagV, tagT) := LastState l' in
      (l', st', (commit, OpenMessage.mk logID now (Entry.Index entry) tagV tagT, None))
  end.

Definition CloseProtocol (l : Logger.t) (st : St) (logID : string) (now : Z)
    : Logger.t * St * (CloseMessage.t * option error) :=
  match Append l st (list_byte_of_string "CLOSE") now with
  | (l', st', (_, Some err)) => (l', st', (CloseMessage.zero, Some err))
  | (l', st', (_, None)) =>
      let '(idx, tagV, tagT) := LastState l' in
      (Logger.mk (Logger.cfg l') (Logger.i l') zero32 zero32
                 (Logger.tagV l') (Logger.tagT l'),
       st', (CloseMessage.mk logID now idx tagV tagT, None))
  end.

End ProtocolWithStore.

Definition VerifyCloseMessage (records : list Rec.t) (closeMsg : CloseMessage.t)
    : option error :=
  match last records with
  | None => Some (ENew "no records to verify")
  | Some lastRec =>
      if negb (Rec.Index lastRec =? CloseMessage.FinalIndex closeMsg)
      then Some (ENew "final index mismatch")
      else if negb (bool_decide (Rec.Msg lastRec = list_byte_of_string "CLOSE"))
      then Some (ENew "missing proper closing message")
      else None
  end.

(** ** The trusted server T (protocol.go) *)

Module TrustedServer.
Record t := mk { commitments : gmap string InitCommitment.t;
                 opens : gmap string OpenMessage.t;
                 closures : gmap string CloseMessage.t }.
End TrustedServer.

Definition NewTrustedServer : TrustedServer.t := TrustedServer.mk ∅ ∅ ∅.

Definition RegisterLog (ts : TrustedServer.t) (commit : InitCommitment.t)
    : TrustedServer.t :=
  TrustedServer.mk (<[InitCommitment.LogID commit := commit]> (TrustedServer.commitments ts))
                   (TrustedServer.opens ts) (TrustedServer.closures ts).

Definition RegisterOpen (ts : TrustedServer.t) (open : OpenMessage.t)
    : TrustedServer.t :=
  TrustedServer.mk (TrustedServer.commitments ts)
                   (<[OpenMessage.LogID open := open]> (TrustedServer.opens ts))
                   (TrustedServer.closures ts).


Definition FinalVerify (ts : TrustedServer.t) (logID : string)
    (records : list Rec.t) : option error :=
  match TrustedServer.commitments ts !! logID with
  | None => Some (ENew "log not registered with trusted server")
  | Some commit =>
  match TrustedServer.opens ts !! logID with
  | None => Some (ENew "log opening not registered with trusted server")
  | Some open =>
  match records with
  | [] => Some (ENew "no records to verify")
  | firstRec :: _ =>
  if negb (Rec.Index firstRec =? OpenMessage.FirstIndex open)
  then Some (ENew "opening index mismatch")
  else if negb (bool_decide (Rec.Msg firstRec = list_byte_of_string "START"))
  then Some (ENew "missing opening message")
  else
  let zeroTag := zero32 in
  match VerifyFrom (take 1 records) 0 (InitCommitment.KeyA0 commit) zeroTag with
  | (_, Some err) => Some (EWrap "verify opening V-chain" err)
  | (firstV, None) =>
  match VerifyFromTrusted (take 1 records) 0 (InitCommitment.KeyB0 commit) zeroTag with
  | (_, Some err) => Some (EWrap "verify opening T-chain" err)
  | (firstT, None) =>
  if negb (hmac.Equal firstV (OpenMessage.FirstTagV open))
     || negb (hmac.Equal firstT (OpenMessage.FirstTagT open))
  then Some (ENew "opening tag mismatch")
  else
  match TrustedServer.closures ts !! logID with
  | None => Some ErrLogNotClosed
  | Some closeMsg =>
  match VerifyCloseMessage records closeMsg with
  | Some err => Some err
  | None =>
  match VerifyFromTrusted records 0 (InitCommitment.KeyB0 commit) zeroTag with
  | (_, Some err) => Some err
  | (finalTag, None) =>
  if negb (hmac.Equal finalTag (CloseMessage.FinalTagT closeMsg))
  then Some (ENew "final T-chain tag mismatch")
  else None
  end end end end end end end end.

Definition DetectDelayedAttack (vTag tTag : bytes) : bool :=
  negb (hmac.Equal vTag tTag).


(** ** Verifiers bound to a store (verifier.go) *)

Section VerifiersWithStore.
Context {St : Type} `{Store St}.

(** [SemiTrustedVerifier.VerifyFromAnchor]. *)
Definition VerifyFromAnchor (st : St) (a : Anchor.t) : option error :=
  match store_Iter st (u64 (Anchor.Index a + 1)) with
  | (_, Some err) => Some err
  | (recs, None) =>
      match VerifyFrom recs (Anchor.Index a) (Anchor.Key a) (Anchor.TagV a) with
      | (_, Some err) => Some err
      | (final, None) =>
          match store_Tail st with
          | (_, _, Some err) => Some err
          | (_, false, None) => Some (ENew "tail state unavailable")
          | (tail, true, None) =>
              if negb (hmac.Equal final (TailState.TagV tail))
              then Some ErrTagMismatch
              else None
          end
      end
  end.

(** [TrustedVerifier.VerifyAll]; [b0] is the field [initialKeyB0]. *)
Definition VerifyAll (st : St) (b0 : bytes) : option error :=
  match store_Iter st 1 with
  | (_, Some err) => Some err
  | (recs, None) =>
      match VerifyFromTrusted recs 0 b0 zero32 with
      | (_, Some err) => Some err
      | (final, None) =>
          match store_Tail st with
          | (_, _, Some err) => Some err
          | (_, false, None) => Some (ENew "tail state unavailable")
          | (tail, true, None) =>
              if negb (hmac.Equal final (TailState.TagT tail))
              then Some ErrTagMismatch
              else None
          end
      end
  end.

(** [TrustedVerifier.VerifyFromAnchor]. *)
Definition TrustedVerifyFromAnchor (st : St) (idx : Z) (bi tagT : bytes)
    : option error :=
  match store_Iter st (u64 (idx + 1)) with
  | (_, Some err) => Some err
  | (recs, None) =>
      match VerifyFromTrusted recs idx bi tagT with
      | (_, Some err) => Some err
      | (final, None) =>
          match store_Tail st with
          | (_, _, Some err) => Some err
          | (_, false, None) => Some (ENew "tail state unavailable")
          | (tail, true, None) =>
              if negb (hmac.Equal final (TailState.TagT tail))
              then Some ErrTagMismatch
              else None
          end
      end
  end.

End VerifiersWithStore.

(** ** The verify endpoint (server.go, proto_convert.go)

    The wire encodings are outside the model: a request body is given by
    what it decodes to, a response body by the value that is encoded. *)

Module pbRecord.
Record t := mk { Index : Z; Ts : Z; Msg : bytes; TagV : bytes; TagT : bytes }.
End pbRecord.

Definition FromProtoRecord (p : pbRecord.t) : Rec.t * option error :=
  if negb (length (pbRecord.TagV p) =? 32)%nat
  then (Rec.mk (pbRecord.Index p) (pbRecord.Ts p) (pbRecord.Msg p) zero32 zero32,
        Some (EInvalidSize "TagV" (length (pbRecord.TagV p))))
  else if negb (length (pbRecord.TagT p) =? 32)%nat
  then (Rec.mk (pbRecord.Index p) (pbRecord.Ts p) (pbRecord.Msg p) (pbRecord.TagV p) zero32,
        Some (EInvalidSize "TagT" (length (pbRecord.TagT p))))
  else (Rec.mk (pbRecord.Index p) (pbRecord.Ts p) (pbRecord.Msg p)
               (pbRecord.TagV p) (pbRecord.TagT p), None).

Fixpoint FromProtoRecords_loop (i : nat) (pRecords : list pbRecord.t)
    : list Rec.t * option error :=
  match pRecords with
  | [] => ([], None)
  | p :: rest =>
      match FromProtoRecord p with
      | (_, Some err) => ([], Some (ERecord i err))
      | (r, None) =>
          match FromProtoRecords_loop (S i) rest with
          | (_, Some err) => ([], Some err)
          | (rs, None) => (r :: rs, None)
          end
      end
  end.

Definition FromProtoRecords (pRecords : list pbRecord.t) : list Rec.t * option error :=
  FromProtoRecords_loop 0 pRecords.

(** What the bytes of a request body are: a gob stream of [[]Record], a
    protobuf [VerifyRequest], or neither. *)
Inductive body : Type :=
  | GobRecords (records : list Rec.t)
  | ProtoVerifyRequest (LogId : string) (Records : list pbRecord.t)
  | Malformed.

Module Request.
Record t := mk { Method : string; Path : string; ContentType : string;
                 Body : body }.
End Request.

Inductive json : Type :=
  | JString (s : string)
  | JBool (b : bool).

(** What is written to the [http.ResponseWriter]. *)
Inductive payload : Type :=
  | PText (text : string)                             (* http.Error *)
  | PJSON (object : list (string * json))             (* json.Encoder.Encode of a map *)
  | PProto (Verified : bool) (ErrorMessage : string). (* proto.Marshal of pb.VerifyResponse *)

Module Response.
Record t := mk { Code : Z; ContentType : string; Payload : payload }.
End Response.

Definition StatusOK : Z := 200.
Definition StatusBadRequest : Z := 400.
Definition StatusUnauthorized : Z := 401.
Definition StatusMethodNotAllowed : Z := 405.
Definition StatusInternalServerError : Z := 500.

Definition http_Error (text : string) (code : Z) : Response.t :=
  Response.mk code "text/plain; charset=utf-8" (PText text).

Definition isProtobuf (r : Request.t) : bool :=
  String.prefix "application/x-protobuf" (Request.ContentType r)
  || String.prefix "application/protobuf" (Request.ContentType r).

(** [decodeVerifyRequest]; the outer [None] is the run-time panic of a
    slice expression out of range. *)
Definition decodeVerifyRequest (r : Request.t)
    : option (string * list Rec.t * option error) :=
  let path := Request.Path r in
  let n := String.length "/api/v1/logs/" in
  if (String.length path <? n)%nat then None
  else
    let logID := String.substring n (String.length path - n) path in
    let m := String.length "/verify" in
    if (String.length logID <? m)%nat then None
    else
      let logID := String.substring 0 (String.length logID - m) logID in
      if isProtobuf r then
        match Request.Body r with
        | ProtoVerifyRequest LogId Records =>
            match FromProtoRecords Records with
            | (_, Some err) => Some ("", [], Some (EWrap "convert records" err))
            | (records, None) => Some (LogId, records, None)
            end
        | _ => Some ("", [], Some (EWrap "unmarshal protobuf" (ENew "proto: cannot parse invalid wire-format data")))
        end
      else
        match Request.Body r with
        | GobRecords records => Some (logID, records, None)
        | _ => Some ("", [], Some (EWrap "decode gob" (ENew "gob: encoded data is not a []Record")))
        end.

(** [encodeVerifyResponse]: the response written and the returned error.
    [json.Encoder] writes the keys of a map in sorted order. *)
Definition encodeVerifyResponse (r : Request.t) (logID : string)
    (verified : bool) (errMsg : string) : Response.t * option error :=
  if isProtobuf r then
    (Response.mk StatusOK "application/x-protobuf" (PProto verified errMsg), None)
  else
    (Response.mk StatusOK "application/json"
       (PJSON [ ("log_id", JString logID); ("status", JString "verified");
                ("verified", JBool verified) ]), None).

(** [Server.HandleVerify] on the trusted server state [ts]; [None] is a
    panic of the handler. *)
Definition HandleVerify (ts : TrustedServer.t) (r : Request.t) : option Response.t :=
  if negb (String.eqb (Request.Method r) "POST")
  then Some (http_Error "Method not allowed" StatusMethodNotAllowed)
  else
    match decodeVerifyRequest r with
    | None => None
    | Some (_, _, Some err) =>
        Some (http_Error ("Invalid request: " +:+ Error err) StatusBadRequest)
    | Some (logID, records, None) =>
        match FinalVerify ts logID records with
        | Some err =>
            match encodeVerifyResponse r logID false (Error err) with
            | (_, Some encErr) =>
                Some (http_Error ("Verification failed: " +:+ Error err) StatusUnauthorized)
            | (resp, None) => Some resp
            end
        | None =>
            match encodeVerifyResponse r logID true "" with
            | (_, Some err) =>
                Some (http_Error ("Failed to encode response: " +:+ Error err)
                                 StatusInternalServerError)
            | (resp, None) => Some resp
            end
        end
    end.

(** ** Runs of the logger

    [Appends l st inputs] calls [Append] once per input, in order, and
    stops at the first call that fails.  It returns the final logger and
    store, the records handed to the store by the successful calls, and the
    error of the failing call, if any. *)

Section RunsWithStore.
Context {St : Type} `{Store St}.

Fixpoint Appends (l : Logger.t) (st : St) (inputs : list (bytes * Z))
    : Logger.t * St * list Rec.t * option error :=
  match inputs with
  | [] => (l, st, [], None)
  | (msg, ts) :: inputs' =>
      match Append l st msg ts with
      | (l', st', (_, Some err)) => (l', st', [], Some err)
      | (l', st', (_, None)) =>
          let '(l'', st'', recs, err) := Appends l' st' inputs' in
          (l'', st'', (Append_prepare l msg ts).1.1.2 :: recs, err)
      end
  end.

End RunsWithStore.

(** The logger [New] returns: index 0, zero aggregates and the initial
    keys [a0] and [b0], which the configuration or [rand.Read] supplied. *)
Definition fresh (cfg : Config.t) (a0 b0 : bytes) : Logger.t :=
  Logger.mk cfg 0 a0 b0 zero32 zero32.

(** The logger [New] returns for the seeds [a0] and [b0]. *)
Definition seeded (every : Z) (a0 b0 : bytes) : Logger.t :=
  fresh (Config.mk every (Some a0) (Some b0)) a0 b0.

(** A tail state as the Go types have it: a [uint64] and two [[32]byte]. *)
Definition wf_tail (tail : TailState.t) : Prop :=
  0 ≤ TailState.Index tail < 2 ^ 64
  ∧ length (TailState.TagV tail) = 32%nat
  ∧ length (TailState.TagT tail) = 32%nat.

(** What the logger relies on: after a successful [Append] the tail slot
    of the store holds the tail state that was passed. *)
Class StoreTailLaw (St : Type) `{Store St} : Prop :=
  tail_after_append :
    ∀ (st st' : St) (r : Rec.t) (tail : TailState.t) (anchor : option Anchor.t),
      wf_tail tail →
      store_Append st r tail anchor = (st', None) →
      store_Tail st' = (tail, true, None).

(** The key and the aggregate of one of the two chains. *)
Definition chain_key (useVerifierChain : bool) (l : Logger.t) : bytes :=
  if useVerifierChain then Logger.keyV l else Logger.keyT l.

Definition chain_tag (useVerifierChain : bool) (l : Logger.t) : bytes :=
  if useVerifierChain then Logger.tagV l else Logger.tagT l.

(** The states in which logger and verifier agree on the first step: a
    logger that has not appended yet, or one whose aggregates are not the
    zero block. *)
Definition chain_inv (l : Logger.t) : Prop :=
  (Logger.i l = 0 ∧ Logger.tagV l = zero32 ∧ Logger.tagT l = zero32)
  ∨ (isZero32 (Logger.tagV l) = false ∧ isZero32 (Logger.tagT l) = false).

(** No aggregate tag of the records is the all-zero block. *)
Definition tags_nonzero (records : list Rec.t) : bool :=
  forallb (fun r => negb (isZero32 (Rec.TagV r)) && negb (isZero32 (Rec.TagT r)))
          records.

(** ** Final verification, as the specification lists its conditions *)

Inductive FinalVerifyFailure : Type :=
  | NotRegistered            (* no commitment for the log *)
  | OpenNotRegistered        (* no open message for the log *)
  | NoRecords                (* the record list is empty *)
  | OpeningRecordMismatch    (* first record: index or START body *)
  | OpeningTagMismatch       (* one-step replay against the open message *)
  | LogNotClosed             (* no closure for the log *)
  | ClosingRecordMismatch    (* last record: index or CLOSE body *)
  | FinalTagMismatch.        (* full T-chain replay against the close message *)

#[global] Instance FinalVerifyFailure_eq_dec : EqDecision FinalVerifyFailure.
Proof. solve_decision. Defined.

(** A replay succeeds with the tag [want]. *)
Definition replays_to (res : bytes * option error) (want : bytes) : Prop :=
  res.2 = None ∧ res.1 = want.

#[global] Instance replays_to_dec res want : Decision (replays_to res want).
Proof. unfold replays_to. apply _. Defined.

(** The conditions of the specification, in its order, each with the
    failure it stands for.  A missing map entry reads as the zero value. *)
Definition FinalVerify_conditions (ts : TrustedServer.t) (logID : string)
    (records : list Rec.t) : list (FinalVerifyFailure * bool) :=
  let commit := default InitCommitment.zero (TrustedServer.commitments ts !! logID) in
  let open := default OpenMessage.zero (TrustedServer.opens ts !! logID) in
  let closeMsg := default CloseMessage.zero (TrustedServer.closures ts !! logID) in
  let firstRec := default Rec.zero (head records) in
  let lastRec := default Rec.zero (last records) in
  [ (NotRegistered, bool_decide (is_Some (TrustedServer.commitments ts !! logID)));
    (OpenNotRegistered, bool_decide (is_Some (TrustedServer.opens ts !! logID)));
    (NoRecords, bool_decide (records ≠ []));
    (OpeningRecordMismatch,
       bool_decide (Rec.Index firstRec = OpenMessage.FirstIndex open
                    ∧ Rec.Msg firstRec = list_byte_of_string "START"));
    (OpeningTagMismatch,
       bool_decide
         (replays_to (VerifyFrom (take 1 records) 0 (InitCommitment.KeyA0 commit) zero32)
                     (OpenMessage.FirstTagV open)
          ∧ replays_to (VerifyFromTrusted (take 1 records) 0 (InitCommitment.KeyB0 commit) zero32)
                       (OpenMessage.FirstTagT open)));
    (LogNotClosed, bool_decide (is_Some (TrustedServer.closures ts !! logID)));
    (ClosingRecordMismatch,
       bool_decide (Rec.Index lastRec = CloseMessage.FinalIndex closeMsg
                    ∧ Rec.Msg lastRec = list_byte_of_string "CLOSE"));
    (FinalTagMismatch,
       bool_decide
         (replays_to (VerifyFromTrusted records 0 (InitCommitment.KeyB0 commit) zero32)
                     (CloseMessage.FinalTagT closeMsg))) ].

(** The failure of the first condition that does not hold. *)
Definition first_violated (conditions : list (FinalVerifyFailure * bool))
    : option FinalVerifyFailure :=
  fst <$> find (fun c => negb c.2) conditions.

(** Which failure an error returned by [FinalVerify] reports. *)
Definition failure_of (e : error) : option FinalVerifyFailure :=
  match e with
  | ENew "log not registered with trusted server" => Some NotRegistered
  | ENew "log opening not registered with trusted server" => Some OpenNotRegistered
  | ENew "no records to verify" => Some NoRecords
  | ENew "opening index mismatch" | ENew "missing opening message" =>
      Some OpeningRecordMismatch
  | EWrap "verify opening V-chain" _ | EWrap "verify opening T-chain" _
  | ENew "opening tag mismatch" => Some OpeningTagMismatch
  | ErrLogNotClosed => Some LogNotClosed
  | ENew "final index mismatch" | ENew "missing proper closing message" =>
      Some ClosingRecordMismatch
  | ErrGap | ErrTagMismatch | ENew "final T-chain tag mismatch" =>
      Some FinalTagMismatch
  | _ => None
  end.

(** ** Sample inputs

    The seeds of the specification's scenario A and a few inputs used to
    run the model. *)

Definition sample_A0 : bytes := zero32.
Definition sample_B0 : bytes := x01 :: repeat x00 31.
Definition sample_logger : Logger.t := seeded 2 sample_A0 sample_B0.
Definition sample_inputs : list (bytes * Z) :=
  [ (list_byte_of_string "a", 1000); (list_byte_of_string "b", 2000);
    (list_byte_of_string "c", 3000) ].

(** Scenario E of the specification: a log that was initialised and opened
    and whose closure was never registered. *)
Definition sample_opened := InitProtocol sample_logger fileStore.empty "test3" 1000.

Definition sample_server_open : TrustedServer.t :=
  let '(_, _, (commit, open, _)) := sample_opened in
  RegisterOpen (RegisterLog NewTrustedServer commit) open.

Definition sample_open_records : list Rec.t :=
  let '(_, st, _) := sample_opened in (store_Iter st 1).1.

(** Three appends of the sample logger on an empty file store. *)
Definition sample_run := Appends sample_logger fileStore.empty sample_inputs.
Definition sample_final : Logger.t := sample_run.1.1.1.
Definition sample_store : fileStore.t := sample_run.1.1.2.
Definition sample_records : list Rec.t := sample_run.1.2.

(** The same three appends on an empty SQLite store. *)
Definition sample_sql_store : sqliteStore.t :=
  (Appends sample_logger sqliteStore.empty sample_inputs).1.1.2.

(** ** Stored records and their largest index *)

(** A record as the Go types and the file format have it: a [uint64]
    index, a message whose length fits the [uint32] length field, and two
    [[32]byte] tags. *)
Definition wf_record (r : Rec.t) : Prop :=
  0 ≤ Rec.Index r < 2 ^ 64
  ∧ Z.of_nat (length (Rec.Msg r)) < 2 ^ 32
  ∧ length (Rec.TagV r) = 32%nat
  ∧ length (Rec.TagT r) = 32%nat.

#[global] Instance wf_record_dec (r : Rec.t) : Decision (wf_record r).
Proof. unfold wf_record. apply _. Defined.

(** [logs.dat] holds exactly the records [records], in this order. *)
Definition file_holds (s : fileStore.t) (records : list Rec.t) : Prop :=
  fileStore.logFile s = concat (fileStore.recordBytes <$> records).

(** [M] is the current maximum stored record index, 0 for an empty store. *)
Definition max_index_is (M : Z) (indices : list Z) : Prop :=
  (indices = [] ∧ M = 0) ∨ (M ∈ indices ∧ ∀ k, k ∈ indices → k ≤ M).

(** The result of an [Append] is the non-contiguous-append error. *)
Definition is_non_contiguous (err : option error) : Prop :=
  ∃ have got, err = Some (ENonContiguous have got).

(** A record that continues the sample run, and one that does not. *)
Definition sample_next : Rec.t := Rec.mk 4 4000 (list_byte_of_string "d") zero32 zero32.
Definition sample_again : Rec.t := Rec.mk 1 4000 (list_byte_of_string "d") zero32 zero32.
Definition sample_tail : TailState.t := TailState.mk 4 zero32 zero32.

(** A second logger with the same seeds, opened on the store that already
    holds the three records of the sample run. *)
Definition sample_failed := Append sample_logger sample_store (list_byte_of_string "x") 4000.

(** The sample run, closed by [CloseProtocol], and one more [Append]. *)
Definition sample_closed := CloseProtocol sample_final sample_store "log" 5000.
Definition sample_after_close :=
  Append sample_closed.1.1 sample_closed.1.2 (list_byte_of_string "x") 6000.

(** Two appends with [AnchorEvery = 2]: the anchor of index 2 is at the
    tail of the store. *)
Definition sample_two := Appends sample_logger fileStore.empty (take 2 sample_inputs).
Definition sample_two_store : fileStore.t := sample_two.1.1.2.
Definition sample_tail_anchor : Anchor.t := (store_AnchorAt sample_two_store 2).1.1.

(** The request of the server test for a failed verification: records for
    a log that was never registered, in the native encoding. *)
Definition sample_request : Request.t :=
  Request.mk "POST" "/api/v1/logs/unknown-log/verify" "application/octet-stream"
             (GobRecords [Rec.mk 1 0 (list_byte_of_string "test") zero32 zero32]).

(** A verify request as the handler accepts it: a POST whose path has the
    two fixed parts and whose body decodes. *)
Definition decodable (r : Request.t) : Prop :=
  Request.Method r = "POST"
  ∧ ∃ logID records, decodeVerifyRequest r = Some (logID, records, None).

(** ** The aggregate recurrence, as the specification writes it *)

(** The tag a record holds for one of the two chains. *)
Definition stored_tag (useVerifierChain : bool) (r : Rec.t) : bytes :=
  if useVerifierChain then Rec.TagV r else Rec.TagT r.

(** The aggregates of a record sequence: the key evolves once per record,
    [τ] is the HMAC of [be64(index) ‖ be64(ts) ‖ msg], and the aggregate is
    [SHA-256(τ)] after a zero aggregate and [SHA-256(μ ‖ τ)] otherwise. *)
Fixpoint chain_tags (key prev : bytes) (records : list Rec.t) : list bytes :=
  match records with
  | [] => []
  | r :: records' =>
      let key := sha256.Sum256 key in
      let τ := hmac.Sum (hmac.Write (hmac.New key)
                 (PutUint64 (Rec.Index r) ++ PutUint64 (u64 (Rec.TS r)) ++ Rec.Msg r)) in
      let μ := if isZero32 prev then sha256.Sum256 τ else sha256.Sum256 (prev ++ τ) in
      μ :: chain_tags key μ records'
  end.

(** The indices a verifier started at [startIdx] expects. *)
Definition expected_indices (startIdx : Z) (n : nat) : list Z :=
  (λ j, u64 (startIdx + j)) <$> seqZ 1 (Z.of_nat n).


(** ** What the files of the file store hold *)

(** A stored record whose timestamp is an [int64]. *)
Definition wf_stored (r : Rec.t) : Prop :=
  wf_record r ∧ - 2 ^ 63 ≤ Rec.TS r < 2 ^ 63.

#[global] Instance wf_stored_dec (r : Rec.t) : Decision (wf_stored r).
Proof. unfold wf_stored. apply _. Defined.

(** An anchor as the Go types have it. *)
Definition wf_anchor (a : Anchor.t) : Prop :=
  0 ≤ Anchor.Index a < 2 ^ 64
  ∧ length (Anchor.Key a) = 32%nat
  ∧ length (Anchor.TagV a) = 32%nat
  ∧ length (Anchor.TagT a) = 32%nat.

#[global] Instance wf_anchor_dec (a : Anchor.t) : Decision (wf_anchor a).
Proof. unfold wf_anchor. apply _. Defined.

(** [anchors.idx] holds exactly the anchors [anchors], in this order. *)
Definition anchors_hold (s : fileStore.t) (anchors : list Anchor.t) : Prop :=
  fileStore.anchorFile s = concat (fileStore.anchorBytes <$> anchors).

(** An argument pair of [Append] as the file format can hold it: a message
    shorter than 4 GiB and an [int64] timestamp. *)
Definition wf_input (input : bytes * Z) : Prop :=
  Z.of_nat (length input.1) < 2 ^ 32 ∧ - 2 ^ 63 ≤ input.2 < 2 ^ 63.

#[global] Instance wf_input_dec (input : bytes * Z) : Decision (wf_input input).
Proof. unfold wf_input. apply _. Defined.

(** The sample store with a torn write at its end: three bytes of a
    fourth record. *)
Definition sample_torn_store : fileStore.t :=
  fileStore.mk (fileStore.logFile sample_store ++ [x00; x00; x00])
               (fileStore.anchorFile sample_store) (fileStore.tailFile sample_store).

(** The logger and the store after the first two sample appends, and the
    records of these. *)
Definition sample_two_logger : Logger.t := sample_two.1.1.1.
Definition sample_two_records : list Rec.t := sample_two.1.2.


(** ** The SQLite store and database errors

    [sqliteStore.Append] begins with [BeginTx] under a five-second timeout
    and returns its error before any statement has run (sqlite_store.go,
    lines 69-74).  Here the database decides the outcome of each coming
    [BeginTx]: [Some err] is a transaction that could not be started,
    [None] (or an exhausted list) one that could.  The other methods are
    those of [sqliteStore]. *)

Module sqliteTx.

Record t := mk { beginTx : list (option error); db : sqliteStore.t }.

Definition Append (s : t) (r : Rec.t) (tail : TailState.t)
  (anchor : option Anchor.t) : t * option error :=
match beginTx s with
| Some err :: outcomes => (mk outcomes (db s), Some err)
| outcomes =>
    let '(db', err) := sqliteStore.Append (db s) r tail anchor in
    (mk (drop 1 outcomes) db', err)
end.

End sqliteTx.

#[global] Instance sqliteTx_Store : Store sqliteTx.t := {|
  store_Append := sqliteTx.Append;
  store_Iter s := sqliteStore.Iter (sqliteTx.db s);
  store_AnchorAt s := sqliteStore.AnchorAt (sqliteTx.db s);
  store_ListAnchors s := sqliteStore.ListAnchors (sqliteTx.db s);
  store_Tail s := sqliteStore.Tail (sqliteTx.db s)
|}.

Section CallsWithStore.
Context {St : Type} `{Store St}.

(** A sequence of [Append] calls, whatever their outcomes: the logger and
  the store after the calls, and the error of each call. *)
Fixpoint Calls (l : Logger.t) (st : St) (inputs : list (bytes * Z))
  : Logger.t * St * list (option error) :=
match inputs with
| [] => (l, st, [])
| (msg, ts) :: inputs' =>
    let '(l', st', (_, err)) := Append l st msg ts in
    let '(l'', st'', errs) := Calls l' st' inputs' in
    (l'', st'', err :: errs)
end.

End CallsWithStore.

(** A new SQLite database whose first transaction times out; the sample
    logger's first call on it, and then the three sample appends. *)
Definition sample_busy_store : sqliteTx.t :=
  sqliteTx.mk [Some (ENew "context deadline exceeded")] sqliteStore.empty.
Definition sample_busy_failed :=
  Append sample_logger sample_busy_store (list_byte_of_string "a") 1000.
Definition sample_busy_run :=
  Appends sample_busy_failed.1.1 sample_busy_failed.1.2 sample_inputs.

(** * Properties *)

(** ** The primitives compute the standard test vectors *)

Example sha256_abc :
  map Z_of_byte (sha256.Sum256 (list_byte_of_string "abc")) =
  [ 0xba; 0x78; 0x16; 0xbf; 0x8f; 0x01; 0xcf; 0xea; 0x41; 0x41; 0x40; 0xde;
    0x5d; 0xae; 0x22; 0x23; 0xb0; 0x03; 0x61; 0xa3; 0x96; 0x17; 0x7a; 0x9c;
    0xb4; 0x10; 0xff; 0x61; 0xf2; 0x00; 0x15; 0xad ].
Proof. vm_compute. reflexivity. Qed.

Example sha256_empty_prefix :
  take 4 (map Z_of_byte (sha256.Sum256 [])) = [ 0xe3; 0xb0; 0xc4; 0x42 ].
Proof. vm_compute. reflexivity. Qed.

Example sha256_two_blocks :
  take 4 (map Z_of_byte (sha256.Sum256 (list_byte_of_string
    "abcdbcdecdefdefgefghfghighijhijkijkljklmklmnlmnomnopnopq"))) =
  [ 0x24; 0x8d; 0x6a; 0x61 ].
Proof. vm_compute. reflexivity. Qed.

Example hmac_rfc4231_case2 :
  take 8 (map Z_of_byte
    (hmac.Sum (hmac.Write (hmac.New (list_byte_of_string "Jefe"))
                          (list_byte_of_string "what do ya want for nothing?")))) =
  [ 0x5b; 0xdc; 0xc1; 0x46; 0xbf; 0x60; 0x75; 0x4e ].
Proof. vm_compute. reflexivity. Qed.

(** ** Bytes and big-endian integers *)

Lemma Z_of_byte_range (b : byte) : 0 ≤ Z_of_byte b < 256.
Proof.
  unfold Z_of_byte. pose proof (Byte.to_N_bounded b). lia.
Qed.

Lemma byte_of_Z_of_byte (b : byte) : byte_of_Z (Z_of_byte b) = b.
Proof.
  unfold byte_of_Z. pose proof (Z_of_byte_range b) as Hb.
  rewrite Z.mod_small by lia. unfold Z_of_byte.
  rewrite N2Z.id, Byte.of_to_N. reflexivity.
Qed.

Lemma Z_of_byte_inj (a b : byte) : Z_of_byte a = Z_of_byte b → a = b.
Proof.
  intros Hab. rewrite <- (byte_of_Z_of_byte a), <- (byte_of_Z_of_byte b).
  now rewrite Hab.
Qed.

Lemma Z_of_byte_of_Z (z : Z) : Z_of_byte (byte_of_Z z) = z mod 256.
Proof.
  unfold byte_of_Z, Z_of_byte.
  pose proof (Z.mod_pos_bound z 256 ltac:(lia)) as Hz.
  destruct (Byte.of_N (Z.to_N (z mod 256))) as [b|] eqn:Hb.
  - apply Byte.to_of_N in Hb. rewrite Hb. lia.
  - apply Byte.of_N_None_iff in Hb. lia.
Qed.

(** The accumulate-and-compare loop shared by [constantTimeEqual],
    [hmacEqual] and [subtle.ConstantTimeCompare]. *)
Lemma xor_fold_zero (a b : bytes) (acc : Z) :
  length a = length b →
  fold_left (fun result ab =>
               Z.lor result (Z.lxor (Z_of_byte ab.1) (Z_of_byte ab.2)))
            (combine a b) acc = 0
  ↔ acc = 0 ∧ a = b.
Proof.
  revert b acc. induction a as [|x a IH]; intros [|y b] acc Hlen;
    simpl in *; try discriminate.
  - intuition.
  - rewrite IH by lia. rewrite Z.lor_eq_0_iff, Z.lxor_eq_0_iff. split.
    + intros [[-> Hxy] ->]. apply Z_of_byte_inj in Hxy. now subst.
    + intros [-> [= -> ->]]. auto.
Qed.

Lemma constantTimeEqual_true (a b : bytes) :
  constantTimeEqual a b = true ↔ a = b.
Proof.
  unfold constantTimeEqual.
  destruct (length a =? length b)%nat eqn:Hlen; simpl.
  - apply Nat.eqb_eq in Hlen. rewrite Z.eqb_eq, xor_fold_zero by done. tauto.
  - apply Nat.eqb_neq in Hlen. split; [discriminate | intros ->; lia].
Qed.

Lemma hmac_Equal_true (a b : bytes) : hmac.Equal a b = true ↔ a = b.
Proof. apply constantTimeEqual_true. Qed.

Lemma hmac_Equal_refl (a : bytes) : hmac.Equal a a = true.
Proof. now apply hmac_Equal_true. Qed.

Lemma constantTimeEqual_refl (a : bytes) : constantTimeEqual a a = true.
Proof. now apply constantTimeEqual_true. Qed.

Lemma isZero32_zero32 : isZero32 zero32 = true.
Proof. reflexivity. Qed.

Lemma length_PutUint32 (v : Z) : length (PutUint32 v) = 4%nat.
Proof. reflexivity. Qed.

Lemma length_PutUint64 (v : Z) : length (PutUint64 v) = 8%nat.
Proof. reflexivity. Qed.

Lemma length_Sum256 (data : bytes) : length (sha256.Sum256 data) = 32%nat.
Proof.
  unfold sha256.Sum256, sha256.checkSum.
  rewrite !length_app, !length_PutUint32. reflexivity.
Qed.

Lemma length_fold (prev m : bytes) : length (fold prev m) = 32%nat.
Proof. apply length_Sum256. Qed.

Lemma length_htag (tag : bytes) : length (htag tag) = 32%nat.
Proof. apply length_Sum256. Qed.

Lemma length_fwdKey (k : bytes) : length (fwdKey k) = 32%nat.
Proof. apply length_Sum256. Qed.

(** [mac] writes its chunks one after the other: the MAC is that of their
    concatenation. *)
Lemma hmac_Write_fold (chunks : list bytes) (h : hmac.hash) :
  fold_left hmac.Write chunks h
  = hmac.Hash (hmac.ipad h) (hmac.opad h) (hmac.written h ++ concat chunks).
Proof.
  revert h. induction chunks as [|c chunks IH]; intros h; simpl.
  - rewrite app_nil_r. now destruct h.
  - rewrite IH. simpl. now rewrite <- app_assoc.
Qed.

Lemma mac_concat (key : bytes) (chunks : list bytes) :
  mac key chunks = hmac.Sum (hmac.Write (hmac.New key) (concat chunks)).
Proof.
  unfold mac. rewrite hmac_Write_fold. reflexivity.
Qed.

Lemma fold_concat (prev m : bytes) : fold prev m = sha256.Sum256 (prev ++ m).
Proof. reflexivity. Qed.


Lemma isZero32_fold (x : bytes) (acc : Z) :
  fold_left (fun acc b => Z.lor acc (Z_of_byte b)) x acc = 0
  ↔ acc = 0 ∧ x = repeat x00 (length x).
Proof.
  revert acc. induction x as [|b x IH]; intros acc; simpl.
  - intuition.
  - rewrite IH, Z.lor_eq_0_iff. split.
    + intros [[-> Hb] <-]. change 0 with (Z_of_byte x00) in Hb.
      apply Z_of_byte_inj in Hb. now subst.
    + intros [-> [= -> Hx]]. rewrite <- Hx. auto.
Qed.

Lemma isZero32_true_iff (x : bytes) :
  length x = 32%nat → isZero32 x = true ↔ x = zero32.
Proof.
  intros Hlen. unfold isZero32. rewrite Z.eqb_eq, isZero32_fold, Hlen.
  unfold zero32. tauto.
Qed.

Lemma isZero32_bool_decide (x : bytes) :
  length x = 32%nat → isZero32 x = bool_decide (x = zero32).
Proof.
  intros Hlen. apply eq_true_iff_eq.
  rewrite bool_decide_eq_true. now apply isZero32_true_iff.
Qed.

(** ** The step of [Append] *)

Lemma mac_three (key a b c : bytes) :
  mac key [a; b; c] = hmac.Sum (hmac.Write (hmac.New key) (a ++ b ++ c)).
Proof.
  rewrite mac_concat. simpl concat. now rewrite app_nil_r.
Qed.

Lemma anchor_guard (every i : Z) :
  negb (every =? 0) && (i mod every =? 0)
  = bool_decide (every ≠ 0 ∧ i mod every = 0).
Proof.
  apply eq_true_iff_eq.
  rewrite andb_true_iff, negb_true_iff, Z.eqb_neq, Z.eqb_eq, bool_decide_eq_true.
  tauto.
Qed.

(** C2: [Append] at step [i] evolves both keys by one SHA-256 application,
    MACs [be64(i) ‖ be64(ts) ‖ msg] under the evolved keys, sets each
    aggregate to [SHA-256(τ)] when [i = 1] and both aggregates are zero and
    to [SHA-256(μ ‖ τ)] otherwise, and hands the store the record that
    carries these two aggregates as [TagV] and [TagT]. *)
Theorem Append_computes_chain_step {St : Type} `{Store St}
    (l : Logger.t) (st : St) (msg : bytes) (ts : Z) :
  length (Logger.tagV l) = 32%nat →
  length (Logger.tagT l) = 32%nat →
  let i := u64 (Logger.i l + 1) in
  let A := sha256.Sum256 (Logger.keyV l) in
  let B := sha256.Sum256 (Logger.keyT l) in
  let data := PutUint64 i ++ PutUint64 (u64 ts) ++ msg in
  let τV := hmac.Sum (hmac.Write (hmac.New A) data) in
  let τT := hmac.Sum (hmac.Write (hmac.New B) data) in
  let first := bool_decide (i = 1 ∧ Logger.tagV l = zero32 ∧ Logger.tagT l = zero32) in
  let μV := if first then sha256.Sum256 τV else sha256.Sum256 (Logger.tagV l ++ τV) in
  let μT := if first then sha256.Sum256 τT else sha256.Sum256 (Logger.tagT l ++ τT) in
  let every := Config.AnchorEvery (Logger.cfg l) in
  let anchor := if bool_decide (every ≠ 0 ∧ i mod every = 0)
                then Some (Anchor.mk i A μV μT) else None in
  Append l st msg ts =
    match store_Append st (Rec.mk i ts msg μV μT) (TailState.mk i μV μT) anchor with
    | (st', None) =>
        (Logger.mk (Logger.cfg l) i A B μV μT, st', (Entry.mk i ts msg μV, None))
    | (st', Some err) =>
        (Logger.mk (Logger.cfg l) (u64 (i - 1)) A B (Logger.tagV l) (Logger.tagT l),
         st', (Entry.zero, Some err))
    end.
Proof.
  intros HlenV HlenT i A B data τV τT first μV μT every anchor.
  unfold Append, Append_prepare.
  rewrite !mac_three, !fold_concat. unfold htag, fwdKey.
  rewrite (isZero32_bool_decide _ HlenV), (isZero32_bool_decide _ HlenT).
  fold i A B every data τV τT.
  assert (Hfirst : (i =? 1) && bool_decide (Logger.tagV l = zero32)
                     && bool_decide (Logger.tagT l = zero32) = first).
  { subst first. apply eq_true_iff_eq.
    rewrite !andb_true_iff, !bool_decide_eq_true, Z.eqb_eq. tauto. }
  rewrite Hfirst. fold μV μT.
  rewrite anchor_guard. fold anchor.
  destruct (store_Append st _ _ anchor) as [st' [err|]]; reflexivity.
Qed.

Lemma Append_computes_chain_step_witness :
  length (Logger.tagV sample_logger) = 32%nat
  ∧ length (Logger.tagT sample_logger) = 32%nat
  ∧ (Append sample_logger fileStore.empty (list_byte_of_string "a") 1000).2
    = (Entry.mk 1 1000 (list_byte_of_string "a")
         (sha256.Sum256
            (hmac.Sum (hmac.Write (hmac.New (sha256.Sum256 sample_A0))
               (PutUint64 1 ++ PutUint64 1000 ++ list_byte_of_string "a")))),
       None).
Proof.
  split; [reflexivity|]. split; [reflexivity|].
  pose proof (Append_computes_chain_step sample_logger fileStore.empty
                (list_byte_of_string "a") 1000 eq_refl eq_refl) as Hstep.
  cbv zeta in Hstep. rewrite Hstep. vm_compute. reflexivity.
Defined.


(** ** Final verification by the trusted server *)

Lemma first_violated_true f cs : first_violated ((f, true) :: cs) = first_violated cs.
Proof. reflexivity. Qed.

Lemma first_violated_false f cs : first_violated ((f, false) :: cs) = Some f.
Proof. reflexivity. Qed.

Lemma first_violated_None cs :
  first_violated cs = None ↔ ∀ c, c ∈ cs → c.2 = true.
Proof.
  induction cs as [|[f [|]] cs IH].
  - split; [intros _ c Hc; inversion Hc | reflexivity].
  - rewrite first_violated_true, IH. split.
    + intros Hcs c Hc. apply elem_of_cons in Hc as [->|Hc]; auto.
    + intros Hcs c Hc. apply Hcs. now right.
  - rewrite first_violated_false. split; [discriminate|].
    intros Hcs. specialize (Hcs (f, false) ltac:(left)). discriminate.
Qed.

Lemma VerifyCloseMessage_None records closeMsg :
  VerifyCloseMessage records closeMsg = None
  ↔ records ≠ []
    ∧ Rec.Index (default Rec.zero (last records)) = CloseMessage.FinalIndex closeMsg
    ∧ Rec.Msg (default Rec.zero (last records)) = list_byte_of_string "CLOSE".
Proof.
  unfold VerifyCloseMessage. destruct (last records) as [lastRec|] eqn:Hlast; simpl.
  - assert (records ≠ []) by (intros ->; discriminate).
    destruct (Rec.Index lastRec =? _) eqn:Hidx; simpl.
    + apply Z.eqb_eq in Hidx. case_bool_decide; simpl; intuition congruence.
    + apply Z.eqb_neq in Hidx. intuition congruence.
  - apply last_None in Hlast. intuition congruence.
Qed.

(** The chain verifier fails with one of its two sentinel errors only. *)
Lemma VerifyChain_loop_error records key prev expect lastTag use tag err :
  VerifyChain_loop records key prev expect lastTag use = (tag, Some err) →
  err = ErrGap ∨ err = ErrTagMismatch.
Proof.
  revert key prev expect lastTag.
  induction records as [|r records IH]; intros key prev expect lastTag; simpl.
  - discriminate.
  - destruct (negb (Rec.Index r =? _)); [intros [= _ <-]; now left|].
    destruct (negb (constantTimeEqual _ _)); [intros [= _ <-]; now right|].
    apply IH.
Qed.

Lemma VerifyChain_error records startIdx kStart tStart use tag err :
  VerifyChain records startIdx kStart tStart use = (tag, Some err) →
  err = ErrGap ∨ err = ErrTagMismatch.
Proof. apply VerifyChain_loop_error. Qed.

Local Ltac fv_fail :=
  eexists; split; [reflexivity | split; [reflexivity | first [discriminate | reflexivity]]].

(** The whole decision of [FinalVerify], condition by condition. *)
Lemma FinalVerify_outcome (ts : TrustedServer.t) (logID : string)
    (records : list Rec.t) :
  match first_violated (FinalVerify_conditions ts logID records) with
  | None => FinalVerify ts logID records = None
  | Some f =>
      ∃ e, FinalVerify ts logID records = Some e ∧ failure_of e = Some f
           ∧ (f = LogNotClosed → e = ErrLogNotClosed)
  end.
Proof.
  unfold FinalVerify, FinalVerify_conditions, replays_to.
  remember (take 1 records) as opening eqn:Hopening. clear Hopening.
  destruct (TrustedServer.commitments ts !! logID) as [commit|] eqn:Hcommit.
  2: { rewrite first_violated_false. fv_fail. }
  rewrite (bool_decide_eq_true_2 _ (mk_is_Some _ _ eq_refl)), first_violated_true.
  destruct (TrustedServer.opens ts !! logID) as [open|] eqn:Hopen.
  2: { rewrite first_violated_false. fv_fail. }
  rewrite (bool_decide_eq_true_2 _ (mk_is_Some _ _ eq_refl)), first_violated_true.
  destruct records as [|firstRec rest].
  { rewrite bool_decide_eq_false_2 by tauto. rewrite first_violated_false. fv_fail. }
  rewrite (bool_decide_eq_true_2 (firstRec :: rest ≠ [])) by discriminate.
  rewrite first_violated_true.
  remember (firstRec :: rest) as records eqn:Hrecords.
  replace (head records) with (Some firstRec) by (subst records; reflexivity).
  cbn [from_option id].
  destruct (Rec.Index firstRec =? OpenMessage.FirstIndex open) eqn:Hidx; cbn [negb].
  2: { apply Z.eqb_neq in Hidx.
       rewrite bool_decide_eq_false_2 by tauto. rewrite first_violated_false. fv_fail. }
  apply Z.eqb_eq in Hidx.
  destruct (decide (Rec.Msg firstRec = list_byte_of_string "START")) as [Hmsg|Hmsg].
  2: { rewrite (bool_decide_eq_false_2 _ Hmsg); cbn [negb].
       rewrite bool_decide_eq_false_2 by tauto. rewrite first_violated_false. fv_fail. }
  rewrite (bool_decide_eq_true_2 _ Hmsg). cbn [negb].
  rewrite (bool_decide_eq_true_2 (_ ∧ _)) by tauto. rewrite first_violated_true.
  destruct (VerifyFrom opening 0 (InitCommitment.KeyA0 commit) zero32)
    as [firstV [errV|]] eqn:HV; cbn [fst snd].
  { rewrite bool_decide_eq_false_2 by (intros [[? _] _]; discriminate).
    rewrite first_violated_false. fv_fail. }
  destruct (VerifyFromTrusted opening 0 (InitCommitment.KeyB0 commit) zero32)
    as [firstT [errT|]] eqn:HT; cbn [fst snd].
  { rewrite bool_decide_eq_false_2 by (intros [_ [? _]]; discriminate).
    rewrite first_violated_false. fv_fail. }
  destruct (hmac.Equal firstV (OpenMessage.FirstTagV open)) eqn:HeqV; cbn [negb orb].
  2: { rewrite bool_decide_eq_false_2
         by (intros [[_ ?] _]; subst firstV; rewrite hmac_Equal_refl in HeqV; discriminate).
       rewrite first_violated_false. fv_fail. }
  apply hmac_Equal_true in HeqV.
  destruct (hmac.Equal firstT (OpenMessage.FirstTagT open)) eqn:HeqT; cbn [negb].
  2: { rewrite bool_decide_eq_false_2
         by (intros [_ [_ ?]]; subst firstT; rewrite hmac_Equal_refl in HeqT; discriminate).
       rewrite first_violated_false. fv_fail. }
  apply hmac_Equal_true in HeqT.
  rewrite (bool_decide_eq_true_2 (_ ∧ _)) by tauto. rewrite first_violated_true.
  destruct (TrustedServer.closures ts !! logID) as [closeMsg|] eqn:Hclose.
  2: { rewrite bool_decide_eq_false_2 by (intros [? ?]; discriminate).
       rewrite first_violated_false. fv_fail. }
  rewrite (bool_decide_eq_true_2 _ (mk_is_Some _ _ eq_refl)), first_violated_true.
  cbn [from_option id].
  destruct (VerifyCloseMessage records closeMsg) as [errC|] eqn:HC.
  - assert (Hnot : ¬ (Rec.Index (default Rec.zero (last records))
                        = CloseMessage.FinalIndex closeMsg
                      ∧ Rec.Msg (default Rec.zero (last records))
                        = list_byte_of_string "CLOSE")).
    { intros [H1 H2].
      assert (VerifyCloseMessage records closeMsg = None) as HN
        by (apply VerifyCloseMessage_None; subst records; repeat split; done).
      congruence. }
    rewrite (bool_decide_eq_false_2 _ Hnot), first_violated_false.
    exists errC. split; [reflexivity|]. split; [|discriminate].
    unfold VerifyCloseMessage in HC.
    destruct (last records) as [lastRec|] eqn:Hlast;
      [|apply last_None in Hlast; congruence].
    destruct (negb (Rec.Index lastRec =? _)); [injection HC as <-; reflexivity|].
    destruct (negb (bool_decide _)); [injection HC as <-; reflexivity|discriminate].
  - apply VerifyCloseMessage_None in HC as (_ & HC1 & HC2).
    rewrite (bool_decide_eq_true_2 (_ ∧ _)) by tauto. rewrite first_violated_true.
    destruct (VerifyFromTrusted records 0 (InitCommitment.KeyB0 commit) zero32)
      as [finalTag [errF|]] eqn:HF; cbn [fst snd].
    + rewrite bool_decide_eq_false_2 by (intros [? _]; discriminate).
      rewrite first_violated_false. exists errF.
      split; [reflexivity|]. split; [|discriminate].
      destruct (VerifyChain_error _ _ _ _ _ _ _ HF) as [-> | ->]; reflexivity.
    + destruct (hmac.Equal finalTag (CloseMessage.FinalTagT closeMsg)) eqn:HeqF;
        cbn [negb].
      * apply hmac_Equal_true in HeqF.
        rewrite (bool_decide_eq_true_2 (_ ∧ _)) by tauto. reflexivity.
      * rewrite bool_decide_eq_false_2
          by (intros [_ ?]; subst finalTag; rewrite hmac_Equal_refl in HeqF; discriminate).
        rewrite first_violated_false. fv_fail.
Qed.

(** C6: [FinalVerify] checks the conditions in the order of the
    specification and fails at the first one that does not hold: the
    commitment, the open message, the records, the first record, the
    opening tags, the closure (with [ErrLogNotClosed], which is not a tag
    mismatch), the last record, the final T-chain tag.  It returns no
    error exactly when all of them hold. *)
Theorem FinalVerify_fails_at_first_violated (ts : TrustedServer.t)
    (logID : string) (records : list Rec.t) :
  let conditions := FinalVerify_conditions ts logID records in
  conditions.*1 = [ NotRegistered; OpenNotRegistered; NoRecords;
                    OpeningRecordMismatch; OpeningTagMismatch; LogNotClosed;
                    ClosingRecordMismatch; FinalTagMismatch ]
  ∧ (FinalVerify ts logID records = None ↔ ∀ c, c ∈ conditions → c.2 = true)
  ∧ (∀ f, first_violated conditions = Some f →
       ∃ e, FinalVerify ts logID records = Some e ∧ failure_of e = Some f)
  ∧ (first_violated conditions = Some LogNotClosed →
       FinalVerify ts logID records = Some ErrLogNotClosed)
  ∧ errors_Is ErrLogNotClosed ErrTagMismatch = false
  ∧ errors_Is ErrTagMismatch ErrLogNotClosed = false.
Proof.
  intros conditions. pose proof (FinalVerify_outcome ts logID records) as Hout.
  fold conditions in Hout. split; [reflexivity|]. split; [|split; [|split]].
  - rewrite <- first_violated_None.
    destruct (first_violated conditions) as [f|].
    + destruct Hout as (e & -> & _). split; discriminate.
    + tauto.
  - intros f Hf. rewrite Hf in Hout. destruct Hout as (e & He & Hfail & _). eauto.
  - intros Hf. rewrite Hf in Hout. destruct Hout as (e & He & _ & Hclosed).
    now rewrite He, Hclosed.
  - split; reflexivity.
Qed.

Lemma FinalVerify_fails_at_first_violated_witness :
  first_violated (FinalVerify_conditions sample_server_open "test3" sample_open_records)
    = Some LogNotClosed
  ∧ FinalVerify sample_server_open "test3" sample_open_records = Some ErrLogNotClosed.
Proof.
  assert (Hf : first_violated (FinalVerify_conditions sample_server_open "test3"
                                 sample_open_records) = Some LogNotClosed)
    by (vm_compute; reflexivity).
  split; [exact Hf|].
  exact (proj1 (proj2 (proj2 (proj2
           (FinalVerify_fails_at_first_violated sample_server_open "test3"
              sample_open_records)))) Hf).
Defined.

(** ** Big-endian round trips *)

Lemma lor_shiftl8 (acc x : Z) :
  0 ≤ x < 256 → Z.lor (Z.shiftl acc 8) x = acc * 256 + x.
Proof.
  intros Hx. rewrite Z.shiftl_mul_pow2 by lia.
  assert (Hland : Z.land (acc * 2 ^ 8) x = 0).
  { apply Z.bits_inj'. intros n Hn. rewrite Z.land_spec, Z.bits_0.
    destruct (Z.ltb_spec n 8).
    - rewrite Z.mul_pow2_bits_low by lia. reflexivity.
    - destruct (Z.eq_dec x 0) as [->|Hx0].
      + rewrite Z.bits_0. apply andb_false_r.
      + rewrite (Z.bits_above_log2 x n), andb_false_r; [reflexivity|lia|].
        apply Z.lt_le_trans with 8; [|lia].
        apply Z.log2_lt_pow2; [lia|]. change (2 ^ 8) with 256. lia. }
  rewrite <- (Z.lxor_lor _ _ Hland), <- (Z.add_nocarry_lxor _ _ Hland).
  reflexivity.
Qed.

Lemma Uint64_PutUint64 (v : Z) (rest : bytes) :
  0 ≤ v < 2 ^ 64 → Uint64 (PutUint64 v ++ rest) = v.
Proof.
  intros Hv. unfold Uint64, PutUint64. cbn [firstn app]. change (take 0 rest) with (@nil byte).
  unfold be_decode. cbn [fold_left].
  rewrite !Z_of_byte_of_Z, !Z.shiftr_div_pow2 by lia.
  rewrite !lor_shiftl8 by (apply Z.mod_pos_bound; lia).
  pose proof (Z.div_mod v 256 ltac:(lia)) as H0.
  pose proof (Z.div_mod (v / 2 ^ 8) 256 ltac:(lia)) as H1.
  pose proof (Z.div_mod (v / 2 ^ 16) 256 ltac:(lia)) as H2.
  pose proof (Z.div_mod (v / 2 ^ 24) 256 ltac:(lia)) as H3.
  pose proof (Z.div_mod (v / 2 ^ 32) 256 ltac:(lia)) as H4.
  pose proof (Z.div_mod (v / 2 ^ 40) 256 ltac:(lia)) as H5.
  pose proof (Z.div_mod (v / 2 ^ 48) 256 ltac:(lia)) as H6.
  pose proof (Z.div_mod (v / 2 ^ 56) 256 ltac:(lia)) as H7.
  rewrite !Z.div_div in * by lia.
  change (2 ^ 8 * 256) with (2 ^ 16) in *. change (2 ^ 16 * 256) with (2 ^ 24) in *.
  change (2 ^ 24 * 256) with (2 ^ 32) in *. change (2 ^ 32 * 256) with (2 ^ 40) in *.
  change (2 ^ 40 * 256) with (2 ^ 48) in *. change (2 ^ 48 * 256) with (2 ^ 56) in *.
  change (2 ^ 56 * 256) with (2 ^ 64) in *. change 256 with (2 ^ 8) in H0 at 2.
  rewrite (Z.div_small v (2 ^ 64)) in H7 by lia.
  lia.
Qed.

Lemma Uint32_PutUint32 (v : Z) (rest : bytes) :
  0 ≤ v < 2 ^ 32 → Uint32 (PutUint32 v ++ rest) = v.
Proof.
  intros Hv. unfold Uint32, PutUint32. cbn [firstn app]. change (take 0 rest) with (@nil byte).
  unfold be_decode. cbn [fold_left].
  rewrite !Z_of_byte_of_Z, !Z.shiftr_div_pow2 by lia.
  rewrite !lor_shiftl8 by (apply Z.mod_pos_bound; lia).
  pose proof (Z.div_mod v 256 ltac:(lia)) as H0.
  pose proof (Z.div_mod (v / 2 ^ 8) 256 ltac:(lia)) as H1.
  pose proof (Z.div_mod (v / 2 ^ 16) 256 ltac:(lia)) as H2.
  pose proof (Z.div_mod (v / 2 ^ 24) 256 ltac:(lia)) as H3.
  rewrite !Z.div_div in * by lia.
  change (2 ^ 8 * 256) with (2 ^ 16) in *. change (2 ^ 16 * 256) with (2 ^ 24) in *.
  change (2 ^ 24 * 256) with (2 ^ 32) in *. change 256 with (2 ^ 8) in H0 at 2.
  rewrite (Z.div_small v (2 ^ 32)) in H3 by lia.
  lia.
Qed.

Lemma u64_range (z : Z) : 0 ≤ u64 z < 2 ^ 64.
Proof. apply Z.mod_pos_bound. lia. Qed.

Lemma u64_small (z : Z) : 0 ≤ z < 2 ^ 64 → u64 z = z.
Proof. apply Z.mod_small. Qed.

Lemma u32_range (z : Z) : 0 ≤ u32 z < 2 ^ 32.
Proof. apply Z.mod_pos_bound. lia. Qed.


(** ** Both stores keep the tail slot *)

Lemma copy32_id (x : bytes) : length x = 32%nat → sqliteStore.copy32 x = x.
Proof.
  intros Hlen. unfold sqliteStore.copy32. now apply take_app_length'.
Qed.

#[global] Instance fileStore_tail_law : StoreTailLaw fileStore.t.
Proof.
  intros st st' r tail anchor (Hidx & HV & HT) Happ.
  unfold store_Append, fileStore_Store, fileStore.Append in Happ.
  destruct (fileStore.getLastIndexLocked st) as [lastIdx [err|]]; [discriminate|].
  destruct (negb (lastIdx =? _)); [discriminate|].
  injection Happ as <-.
  unfold store_Tail, fileStore_Store, fileStore.Tail, fileStore.readTailLocked,
    fileStore.writeTailLocked, fileStore.tailBytes.
  cbn [fileStore.tailFile].
  assert (Hlen : length (PutUint64 (TailState.Index tail) ++ TailState.TagV tail
                           ++ TailState.TagT tail) = fileStore.tailEntrySize).
  { rewrite !length_app, length_PutUint64, HV, HT. reflexivity. }
  rewrite Hlen, Nat.ltb_irrefl.
  rewrite take_ge by lia.
  rewrite Uint64_PutUint64 by done.
  rewrite (drop_app_length' _ _ 8) by reflexivity.
  rewrite (take_app_length' _ _ 32) by done.
  rewrite (drop_app_add' _ _ 8 32) by reflexivity.
  rewrite (drop_app_length' _ _ 32) by done.
  rewrite take_ge by lia.
  now destruct tail.
Qed.

#[global] Instance sqliteStore_tail_law : StoreTailLaw sqliteStore.t.
Proof.
  intros st st' r tail anchor (Hidx & HV & HT) Happ.
  unfold store_Append, sqliteStore_Store, sqliteStore.Append in Happ.
  destruct (negb (u64 _ =? _)); [discriminate|].
  destruct (sqliteStore.arg_uint64 (Rec.Index r)) as [idx|]; [|discriminate].
  destruct (sqliteStore.logs st !! idx); [discriminate|].
  destruct (match anchor with Some _ => _ | None => _ end) as [anchors'|];
    [|discriminate].
  destruct (sqliteStore.arg_uint64 (TailState.Index tail)) as [ti|] eqn:Hti;
    [|discriminate].
  injection Happ as <-.
  unfold sqliteStore.arg_uint64 in Hti.
  destruct (TailState.Index tail <? 2 ^ 63); [|discriminate]. injection Hti as <-.
  unfold store_Tail, sqliteStore_Store, sqliteStore.Tail.
  cbn [sqliteStore.tail sqliteStore.tail_idx sqliteStore.tail_tagV sqliteStore.tail_tagT].
  rewrite HV, HT. cbn [Nat.eqb negb orb].
  rewrite !copy32_id, u64_small by done. now destruct tail.
Qed.

(** ** Runs of successful appends *)

Section RunLemmas.
Context {St : Type} `{Store St}.

Lemma Append_success (l l' : Logger.t) (st st' : St) (msg : bytes) (ts : Z)
    (e : Entry.t) :
  Append l st msg ts = (l', st', (e, None)) →
  let rec := (Append_prepare l msg ts).1.1.2 in
  store_Append st rec (TailState.mk (Rec.Index rec) (Rec.TagV rec) (Rec.TagT rec))
               (Append_prepare l msg ts).2 = (st', None)
  ∧ l' = Logger.mk (Logger.cfg l) (u64 (Logger.i l + 1))
                   (sha256.Sum256 (Logger.keyV l)) (sha256.Sum256 (Logger.keyT l))
                   (Rec.TagV rec) (Rec.TagT rec)
  ∧ Rec.Index rec = u64 (Logger.i l + 1).
Proof.
  unfold Append, Append_prepare. cbn [fst snd].
  destruct (store_Append st _ _ _) as [st1 [err|]]; [discriminate|].
  intros [= <- <- <-]. auto.
Qed.

Lemma Appends_cons_success (l l' : Logger.t) (st st' : St) (msg : bytes)
    (ts : Z) (inputs : list (bytes * Z)) (records : list Rec.t) :
  Appends l st ((msg, ts) :: inputs) = (l', st', records, None) →
  ∃ l1 st1 e records1,
    Append l st msg ts = (l1, st1, (e, None))
    ∧ Appends l1 st1 inputs = (l', st', records1, None)
    ∧ records = (Append_prepare l msg ts).1.1.2 :: records1.
Proof.
  cbn [Appends].
  destruct (Append l st msg ts) as [[l1 st1] [e [err|]]]; [discriminate|].
  destruct (Appends l1 st1 inputs) as [[[l2 st2] records1] err2] eqn:Hrest.
  intros [= <- <- <- ->]. exists l1, st1, e, records1. repeat split; done.
Qed.

Lemma Appends_length (l l' : Logger.t) (st st' : St)
    (inputs : list (bytes * Z)) (records : list Rec.t) :
  Appends l st inputs = (l', st', records, None) →
  length records = length inputs.
Proof.
  revert l st records. induction inputs as [|[msg ts] inputs IH];
    intros l st records Hrun.
  - now injection Hrun as <- <- <-.
  - apply Appends_cons_success in Hrun as (l1 & st1 & e & records1 & _ & Hrun & ->).
    cbn [length]. f_equal. eauto.
Qed.

(** Keys after a run: one hash application per call. *)
Lemma Appends_keys (l l' : Logger.t) (st st' : St)
    (inputs : list (bytes * Z)) (records : list Rec.t) :
  Appends l st inputs = (l', st', records, None) →
  Logger.keyV l' = Nat.iter (length inputs) sha256.Sum256 (Logger.keyV l)
  ∧ Logger.keyT l' = Nat.iter (length inputs) sha256.Sum256 (Logger.keyT l).
Proof.
  revert l st records. induction inputs as [|[msg ts] inputs IH];
    intros l st records Hrun.
  - now injection Hrun as <- <- <-.
  - apply Appends_cons_success in Hrun as (l1 & st1 & e & records1 & Happ & Hrun & ->).
    apply Append_success in Happ as (_ & -> & _).
    apply IH in Hrun as [-> ->]. cbn [length Logger.keyV Logger.keyT].
    now rewrite !Nat.iter_succ_r.
Qed.

(** Index after a run, and the indices of the records. *)
Lemma Appends_indices (l l' : Logger.t) (st st' : St)
    (inputs : list (bytes * Z)) (records : list Rec.t) :
  Appends l st inputs = (l', st', records, None) →
  Logger.i l' = (if inputs is [] then Logger.i l
                 else u64 (Logger.i l + Z.of_nat (length inputs)))
  ∧ Rec.Index <$> records
    = (λ k, u64 (Logger.i l + k)) <$> seqZ 1 (Z.of_nat (length inputs)).
Proof.
  revert l st records. induction inputs as [|[msg ts] inputs IH];
    intros l st records Hrun.
  - now injection Hrun as <- <- <-.
  - apply Appends_cons_success in Hrun as (l1 & st1 & e & records1 & Happ & Hrun & ->).
    apply Append_success in Happ as (_ & -> & Hidx).
    apply IH in Hrun as [Hi Hrecs]. cbn [Logger.i] in Hi, Hrecs.
    rewrite Hi. cbn [length]. split.
    + destruct inputs as [|input inputs]; [f_equal; simpl; lia|].
      unfold u64. rewrite Zplus_mod_idemp_l. f_equal. lia.
    + rewrite seqZ_cons by lia. cbn [fmap list_fmap]. rewrite Hidx. f_equal.
      rewrite Hrecs.
      replace (Z.pred (Z.of_nat (S (length inputs)))) with (Z.of_nat (length inputs))
        by lia.
      rewrite <- (fmap_add_seqZ 1 1).
      rewrite <- list_fmap_compose. apply list_fmap_ext. intros _ k _. simpl.
      unfold u64. rewrite Zplus_mod_idemp_l. f_equal. lia.
Qed.

End RunLemmas.

(** ** Replaying a run *)

Lemma chain_inv_fresh cfg a0 b0 : chain_inv (fresh cfg a0 b0).
Proof. left. auto. Qed.

Lemma prepare_record_tag (use : bool) (l : Logger.t) (msg : bytes) (ts : Z) :
  chain_inv l →
  let rec := (Append_prepare l msg ts).1.1.2 in
  let macVal := mac (sha256.Sum256 (chain_key use l))
                    [PutUint64 (Rec.Index rec); PutUint64 (u64 (Rec.TS rec)); Rec.Msg rec] in
  (if use then Rec.TagV rec else Rec.TagT rec)
  = if isZero32 (chain_tag use l) then htag macVal else fold (chain_tag use l) macVal.
Proof.
  intros Hinv. unfold Append_prepare, chain_key, chain_tag, fwdKey.
  cbn [fst snd Rec.Index Rec.TS Rec.Msg Rec.TagV Rec.TagT].
  destruct Hinv as [(Hi & HV & HT) | (HV & HT)].
  - destruct use; rewrite Hi, HV, HT, isZero32_zero32; reflexivity.
  - destruct use; rewrite HV, HT, andb_false_r; reflexivity.
Qed.

Section ReplayLemmas.
Context {St : Type} `{Store St}.

Lemma Appends_replay (use : bool) (inputs : list (bytes * Z)) :
  ∀ (l l' : Logger.t) (st st' : St) (records : list Rec.t) (lastTag : bytes),
    chain_inv l →
    Appends l st inputs = (l', st', records, None) →
    tags_nonzero records = true →
    VerifyChain_loop records (chain_key use l) (chain_tag use l) (Logger.i l)
                     lastTag use
    = (if inputs is [] then lastTag else chain_tag use l', None).
Proof.
  induction inputs as [|[msg ts] inputs IH];
    intros l l' st st' records lastTag Hinv Hrun Hnz.
  - now injection Hrun as <- <- <-.
  - apply Appends_cons_success in Hrun as (l1 & st1 & e & records1 & Happ & Hrun & ->).
    pose proof (prepare_record_tag use l msg ts Hinv) as Htag.
    apply Append_success in Happ as (_ & Hl1 & Hidx).
    set (rec := (Append_prepare l msg ts).1.1.2) in *.
    cbn [tags_nonzero forallb] in Hnz.
    apply andb_true_iff in Hnz as [Hrec Hnz].
    apply andb_true_iff in Hrec as [HrecV HrecT].
    apply negb_true_iff in HrecV, HrecT.
    assert (Hinv1 : chain_inv l1).
    { right. subst l1. cbn [Logger.tagV Logger.tagT]. split; [exact HrecV | exact HrecT]. }
    cbn [VerifyChain_loop]. rewrite Hidx, Z.eqb_refl. cbn [negb].
    rewrite <- Hidx. cbv zeta in Htag. rewrite <- Htag.
    rewrite constantTimeEqual_refl. cbn [negb].
    specialize (IH l1 l' st1 st' records1
                   (if use then Rec.TagV rec else Rec.TagT rec) Hinv1 Hrun Hnz).
    replace (chain_key use l1) with (sha256.Sum256 (chain_key use l)) in IH
      by (subst l1; now destruct use).
    replace (chain_tag use l1) with (if use then Rec.TagV rec else Rec.TagT rec) in IH
      by (subst l1; now destruct use).
    replace (Logger.i l1) with (Rec.Index rec) in IH by (subst l1; exact Hidx).
    rewrite IH. destruct inputs; [|reflexivity].
    injection Hrun as <- _ _. subst l1. now destruct use.
Qed.

(** The aggregates of the logger after a run have 32 bytes. *)
Lemma Appends_tag_lengths (l l' : Logger.t) (st st' : St)
    (inputs : list (bytes * Z)) (records : list Rec.t) :
  length (Logger.tagV l) = 32%nat → length (Logger.tagT l) = 32%nat →
  Appends l st inputs = (l', st', records, None) →
  length (Logger.tagV l') = 32%nat ∧ length (Logger.tagT l') = 32%nat.
Proof.
  revert l st records. induction inputs as [|[msg ts] inputs IH];
    intros l st records HV HT Hrun.
  - now injection Hrun as <- <- <-.
  - apply Appends_cons_success in Hrun as (l1 & st1 & e & records1 & Happ & Hrun & ->).
    apply Append_success in Happ as (_ & -> & _).
    apply IH in Hrun; [done| |]; cbn [Logger.tagV Logger.tagT];
      unfold Append_prepare; cbn [fst snd Rec.TagV Rec.TagT];
      destruct (_ && _); apply length_Sum256.
Qed.

End ReplayLemmas.

Section TailLemmas.
Context {St : Type} `{StoreTailLaw St}.

(** After a successful call the tail slot is what [LastState] reports. *)
Lemma Append_tail (l l' : Logger.t) (st st' : St) (msg : bytes) (ts : Z)
    (e : Entry.t) :
  Append l st msg ts = (l', st', (e, None)) →
  store_Tail st'
  = (TailState.mk (Logger.i l') (Logger.tagV l') (Logger.tagT l'), true, None).
Proof.
  intros Happ. apply Append_success in Happ as (Hstore & -> & Hidx).
  apply tail_after_append in Hstore.
  - rewrite Hstore, Hidx. reflexivity.
  - unfold wf_tail. cbn [TailState.Index TailState.TagV TailState.TagT].
    rewrite Hidx. split; [apply u64_range|].
    unfold Append_prepare; cbn [fst snd Rec.TagV Rec.TagT].
    split; destruct (_ && _); apply length_Sum256.
Qed.

Lemma Appends_tail (l l' : Logger.t) (st st' : St)
    (inputs : list (bytes * Z)) (records : list Rec.t) :
  Appends l st inputs = (l', st', records, None) →
  store_Tail st'
  = if inputs is [] then store_Tail st
    else (TailState.mk (Logger.i l') (Logger.tagV l') (Logger.tagT l'), true, None).
Proof.
  revert l st records. induction inputs as [|[msg ts] inputs IH];
    intros l st records Hrun.
  - now injection Hrun as <- <- <-.
  - apply Appends_cons_success in Hrun as (l1 & st1 & e & records1 & Happ & Hrun & ->).
    apply Append_tail in Happ. rewrite (IH _ _ _ Hrun).
    destruct inputs; [|reflexivity].
    injection Hrun as <- <- _. exact Happ.
Qed.

End TailLemmas.

(** ** Properties of runs *)

Lemma New_seeded (every : Z) (a0 b0 : bytes) (randV randT : option bytes) :
  New (Config.mk every (Some a0) (Some b0)) randV randT
  = (Some (seeded every a0 b0), None).
Proof. reflexivity. Qed.

Lemma New_fresh (cfg : Config.t) (randV randT : option bytes) (l : Logger.t) :
  New cfg randV randT = (Some l, None) → ∃ a0 b0, l = fresh cfg a0 b0.
Proof.
  unfold New. destruct (match Config.InitialKeyV cfg with Some _ => _ | None => _ end);
    [|discriminate].
  destruct (match Config.InitialKeyT cfg with Some _ => _ | None => _ end);
    [|discriminate].
  intros [= <-]. eauto.
Qed.

Lemma sample_run_eq :
  Appends sample_logger fileStore.empty sample_inputs
  = (sample_final, sample_store, sample_records, None).
Proof. vm_compute. reflexivity. Qed.

(** X16: a run of a logger created with the seeds [A0], [B0] in which no
    call of [Append] failed: the records of the run verify from the origin
    on both chains, and the tags the verifiers return are the tags the
    logger committed last, which are those of the tail slot of the store.
    The run is one in which no aggregate is the all-zero block (an
    aggregate is a SHA-256 output). *)
Theorem logger_records_verify {St : Type} `{StoreTailLaw St}
    (every : Z) (A0 B0 : bytes) (st st' : St) (inputs : list (bytes * Z))
    (l' : Logger.t) (records : list Rec.t) (idx : Z) (μV μT : bytes) :
  Appends (seeded every A0 B0) st inputs = (l', st', records, None) →
  tags_nonzero records = true →
  LastState l' = (idx, μV, μT) →
  VerifyFrom records 0 A0 zero32 = (μV, None)
  ∧ VerifyFromTrusted records 0 B0 zero32 = (μT, None)
  ∧ (inputs ≠ [] → store_Tail st' = (TailState.mk idx μV μT, true, None)).
Proof.
  intros Hrun Hnz [= <- <- <-].
  pose proof (Appends_replay true inputs _ _ _ _ _ zero32
                (chain_inv_fresh _ A0 B0) Hrun Hnz) as HV.
  pose proof (Appends_replay false inputs _ _ _ _ _ zero32
                (chain_inv_fresh _ A0 B0) Hrun Hnz) as HT.
  pose proof (Appends_tail _ _ _ _ _ _ Hrun) as Htail.
  unfold VerifyFrom, VerifyFromTrusted, VerifyChain.
  cbn [chain_key chain_tag seeded fresh Logger.keyV Logger.keyT Logger.tagV
       Logger.tagT Logger.i] in HV, HT.
  rewrite HV, HT. destruct inputs as [|input inputs].
  - injection Hrun as <- _ _. repeat split; done.
  - repeat split; done.
Qed.

Lemma logger_records_verify_witness :
  Appends (seeded 2 sample_A0 sample_B0) fileStore.empty sample_inputs
    = (sample_final, sample_store, sample_records, None)
  ∧ tags_nonzero sample_records = true
  ∧ VerifyFrom sample_records 0 sample_A0 zero32 = (Logger.tagV sample_final, None)
  ∧ VerifyFromTrusted sample_records 0 sample_B0 zero32 = (Logger.tagT sample_final, None)
  ∧ (sample_inputs ≠ [] →
     store_Tail sample_store
     = (TailState.mk (Logger.i sample_final) (Logger.tagV sample_final)
                     (Logger.tagT sample_final), true, None)).
Proof.
  split; [exact sample_run_eq|]. split; [vm_compute; reflexivity|].
  apply (logger_records_verify 2 sample_A0 sample_B0 fileStore.empty sample_store
           sample_inputs sample_final sample_records).
  - exact sample_run_eq.
  - vm_compute; reflexivity.
  - reflexivity.
Defined.

Lemma max_seqZ (k : nat) (m : Z) :
  0 ≤ m →
  foldr Z.max 0 (seqZ m (Z.of_nat k)) = if k is O then 0 else m + Z.of_nat k - 1.
Proof.
  revert m. induction k as [|k IH]; intros m Hm; [reflexivity|].
  rewrite seqZ_cons by lia. cbn [foldr].
  replace (Z.pred (Z.of_nat (S k))) with (Z.of_nat k) by lia.
  rewrite IH by lia. destruct k; lia.
Qed.

(** C5: after [n] successful appends of a fresh logger the tail slot of the
    store holds the index [n], which is the largest record index, and the
    two tags [LastState] reports.  ([n] is a [uint64]; before the first
    append the store has no tail and reads as the zero tail state.) *)
Theorem tail_slot_matches_LastState {St : Type} `{StoreTailLaw St}
    (cfg : Config.t) (a0 b0 : bytes) (st st' : St)
    (inputs : list (bytes * Z)) (l' : Logger.t) (records : list Rec.t) :
  let n := Z.of_nat (length inputs) in
  n < 2 ^ 64 →
  store_Tail st = (TailState.zero, false, None) →
  Appends (fresh cfg a0 b0) st inputs = (l', st', records, None) →
  ∃ μV μT,
    LastState l' = (n, μV, μT)
    ∧ store_Tail st' = (TailState.mk n μV μT, bool_decide (inputs ≠ []), None)
    ∧ Rec.Index <$> records = seqZ 1 n
    ∧ foldr Z.max 0 (Rec.Index <$> records) = n.
Proof.
  intros n Hn Hfresh Hrun.
  pose proof (Appends_indices _ _ _ _ _ _ Hrun) as [Hi Hidx].
  pose proof (Appends_tail _ _ _ _ _ _ Hrun) as Htail.
  cbn [fresh Logger.i] in Hi, Hidx. fold n in Hidx.
  assert (Hseq : Rec.Index <$> records = seqZ 1 n).
  { rewrite Hidx. rewrite <- (list_fmap_id (seqZ 1 n)) at 2.
    apply list_fmap_ext. intros j k Hk.
    apply lookup_seqZ in Hk as [-> Hj]. simpl. apply u64_small. lia. }
  exists (Logger.tagV l'), (Logger.tagT l'). unfold LastState.
  assert (Hl' : Logger.i l' = n).
  { rewrite Hi. destruct inputs; [reflexivity|]. apply u64_small. lia. }
  rewrite Hl', Hseq, Htail. repeat split.
  - destruct inputs as [|input inputs].
    + injection Hrun as <- _ _. exact Hfresh.
    + rewrite Hl'. reflexivity.
  - subst n. rewrite max_seqZ by lia. destruct inputs; [reflexivity|].
    cbn [length]. lia.
Qed.

Lemma tail_slot_matches_LastState_witness :
  Z.of_nat (length sample_inputs) < 2 ^ 64
  ∧ store_Tail fileStore.empty = (TailState.zero, false, None)
  ∧ ∃ μV μT,
      LastState sample_final = (3, μV, μT)
      ∧ store_Tail sample_store = (TailState.mk 3 μV μT, true, None)
      ∧ Rec.Index <$> sample_records = [1; 2; 3]
      ∧ foldr Z.max 0 (Rec.Index <$> sample_records) = 3.
Proof.
  split; [reflexivity|]. split; [reflexivity|].
  exact (tail_slot_matches_LastState (Config.mk 2 (Some sample_A0) (Some sample_B0))
           sample_A0 sample_B0 fileStore.empty sample_store sample_inputs
           sample_final sample_records eq_refl eq_refl sample_run_eq).
Defined.


(** ** The contiguity check of the stores *)

Lemma length_recordBytes (r : Rec.t) :
  wf_record r →
  length (fileStore.recordBytes r) = (84 + length (Rec.Msg r))%nat.
Proof.
  intros (_ & Hmsg & HV & HT). unfold fileStore.recordBytes.
  rewrite !length_app, !length_PutUint64, length_PutUint32, HV, HT.
  unfold u32. rewrite Z.mod_small by lia. rewrite Nat2Z.id, firstn_all. lia.
Qed.

(** One round of the scan of [getLastIndexLocked] skips one record. *)
Lemma getLastIndex_loop_record (fuel : nat) (r : Rec.t) (rest : bytes) (lastIdx : Z) :
  wf_record r →
  fileStore.getLastIndex_loop (S fuel) (fileStore.recordBytes r ++ rest) lastIdx
  = fileStore.getLastIndex_loop fuel rest (Rec.Index r).
Proof.
  intros (Hidx & Hmsg & HV & HT). unfold fileStore.recordBytes.
  unfold u32. rewrite (Z.mod_small (Z.of_nat _)) by lia.
  rewrite Nat2Z.id, firstn_all. rewrite <- !app_assoc.
  cbn [fileStore.getLastIndex_loop].
  rewrite (proj2 (Nat.eqb_neq _ 0)) by (rewrite length_app, length_PutUint64; lia).
  rewrite (proj2 (Nat.ltb_ge _ 8)) by (rewrite length_app, length_PutUint64; lia).
  rewrite Uint64_PutUint64 by done.
  rewrite (drop_app_length' _ _ 8) by reflexivity.
  rewrite (proj2 (Nat.ltb_ge _ 8)) by (rewrite length_app, length_PutUint64; lia).
  rewrite (drop_app_length' _ _ 8) by reflexivity.
  rewrite (proj2 (Nat.eqb_neq _ 0)) by (rewrite length_app, length_PutUint32; lia).
  rewrite (proj2 (Nat.ltb_ge _ 4)) by (rewrite length_app, length_PutUint32; lia).
  rewrite Uint32_PutUint32 by lia.
  rewrite (drop_app_length' _ _ 4) by reflexivity.
  rewrite (proj2 (Z.ltb_ge _ _))
    by (rewrite !length_app, HV, HT; unfold fileStore.tagsSize; lia).
  f_equal.
  rewrite !app_assoc.
  apply drop_app_length'. rewrite !length_app, HV, HT.
  unfold fileStore.tagsSize. lia.
Qed.

Lemma getLastIndex_loop_records (records : list Rec.t) :
  ∀ (fuel : nat) (lastIdx : Z),
    Forall wf_record records →
    (length records ≤ fuel)%nat →
    fileStore.getLastIndex_loop fuel (concat (fileStore.recordBytes <$> records)) lastIdx
    = (default lastIdx (Rec.Index <$> last records), None).
Proof.
  induction records as [|r records IH]; intros fuel lastIdx Hwf Hfuel.
  - destruct fuel; reflexivity.
  - apply Forall_cons in Hwf as [Hr Hwf].
    destruct fuel as [|fuel]; [simpl in Hfuel; lia|].
    cbn [fmap list_fmap concat]. rewrite getLastIndex_loop_record by done.
    rewrite IH by (simpl in Hfuel; done || lia).
    destruct records as [|r' records]; [reflexivity|].
    change (last (r :: r' :: records)) with (last (r' :: records)).
    destruct (last (r' :: records)) eqn:Hlast; [reflexivity|].
    apply last_None in Hlast. discriminate.
Qed.

Lemma length_concat_recordBytes (records : list Rec.t) :
  Forall wf_record records →
  (length records ≤ length (concat (fileStore.recordBytes <$> records)))%nat.
Proof.
  induction 1 as [|r records Hr _ IH]; [reflexivity|].
  cbn [fmap list_fmap concat length]. rewrite length_app, length_recordBytes by done.
  lia.
Qed.

(** [getLastIndexLocked] returns the index of the last record, 0 if the
    file is empty. *)
Lemma getLastIndexLocked_last (s : fileStore.t) (records : list Rec.t) :
  file_holds s records →
  Forall wf_record records →
  fileStore.getLastIndexLocked s = (default 0 (Rec.Index <$> last records), None).
Proof.
  intros Hholds Hwf. unfold file_holds in Hholds.
  unfold fileStore.getLastIndexLocked. rewrite Hholds.
  destruct (length _ =? 0)%nat eqn:Hlen.
  - apply Nat.eqb_eq in Hlen. pose proof (length_concat_recordBytes records Hwf).
    destruct records; [reflexivity|]. simpl in *. lia.
  - apply getLastIndex_loop_records; [done|]. now apply length_concat_recordBytes.
Qed.

Lemma sorted_last_is_max (indices : list Z) (M : Z) :
  StronglySorted Z.le indices → last indices = Some M →
  ∀ k, k ∈ indices → k ≤ M.
Proof.
  induction 1 as [|x indices Hsorted IH Hx]; intros Hlast k Hk; [inversion Hk|].
  destruct indices as [|y indices].
  - injection Hlast as <-. apply list_elem_of_singleton in Hk. lia.
  - cbn [last] in Hlast. apply elem_of_cons in Hk as [->|Hk]; [|now apply IH].
    rewrite Forall_forall in Hx. apply Hx.
    now apply last_Some_elem_of.
Qed.

Lemma max_index_is_last (indices : list Z) (M : Z) :
  StronglySorted Z.le indices →
  max_index_is M indices → M = default 0 (last indices).
Proof.
  intros Hsorted [[-> ->] | [HM Hmax]]; [reflexivity|].
  destruct (last indices) as [L|] eqn:Hlast.
  - pose proof (sorted_last_is_max _ _ Hsorted Hlast M HM).
    apply last_Some_elem_of, Hmax in Hlast. simpl. lia.
  - apply last_None in Hlast. subst. inversion HM.
Qed.

Lemma max_idx_is_max (logs : gmap Z sqliteStore.logRow) (M : Z) :
  max_index_is M (map_to_list logs).*1 → sqliteStore.max_idx logs = M.
Proof.
  unfold sqliteStore.max_idx. intros [[-> ->] | [HM Hmax]]; [reflexivity|].
  destruct ((map_to_list logs).*1) as [|k ks]; [inversion HM|].
  assert (Hfold : ∀ l a, (∀ x, x ∈ a :: l → x ≤ M) → M ∈ a :: l →
                         foldr Z.max a l = M).
  { clear. induction l as [|y l IH]; intros a Hle Hin.
    - apply list_elem_of_singleton in Hin. now subst.
    - cbn [foldr].
      destruct (decide (M = y)) as [->|Hne].
      + assert (foldr Z.max a l ≤ y); [|lia].
        clear IH Hin. assert (Ha : ∀ x, x ∈ a :: l → x ≤ y).
        { intros x Hx. apply Hle. apply elem_of_cons in Hx as [->|Hx];
            [left | right; now right]. }
        clear Hle. revert a Ha. induction l as [|z l IHl]; intros a Ha; simpl.
        * apply Ha. left.
        * apply Z.max_lub.
          -- apply Ha. right. left.
          -- apply IHl. intros x Hx. apply Ha.
             apply elem_of_cons in Hx as [->|Hx]; [left | right; now right].
      + rewrite (IH a).
        * apply Z.max_r, Hle. right. left.
        * intros x Hx. apply Hle.
          apply elem_of_cons in Hx as [->|Hx]; [left | right; now right].
        * apply elem_of_cons in Hin as [->|Hin]; [left|].
          apply elem_of_cons in Hin as [->|Hin]; [done | now right]. }
  now apply Hfold.
Qed.

Lemma u64_pred_zero (i : Z) : 0 ≤ i < 2 ^ 64 → u64 (i - 1) = 0 ↔ i = 1.
Proof.
  intros Hi. unfold u64. destruct (decide (i = 0)) as [->|Hne].
  - split; [discriminate | lia].
  - rewrite Z.mod_small by lia. lia.
Qed.

Lemma fileStore_Append_check (s : fileStore.t) (records : list Rec.t) (M : Z)
    (r : Rec.t) (tail : TailState.t) (anchor : option Anchor.t) :
  file_holds s records → Forall wf_record records →
  StronglySorted Z.le (Rec.Index <$> records) →
  max_index_is M (Rec.Index <$> records) →
  fileStore.Append s r tail anchor
  = if negb (M =? u64 (Rec.Index r - 1))
    then (s, Some (ENonContiguous M (Rec.Index r)))
    else (fileStore.writeTailLocked
            (match anchor with
             | Some a => fileStore.writeAnchorLocked (fileStore.writeRecordLocked s r) a
             | None => fileStore.writeRecordLocked s r
             end) tail, None).
Proof.
  intros Hholds Hwf Hsorted HM. unfold fileStore.Append.
  rewrite (getLastIndexLocked_last s records Hholds Hwf).
  apply max_index_is_last in HM; [|done]. rewrite fmap_last in HM. rewrite <- HM.
  reflexivity.
Qed.

Lemma file_holds_Append (s : fileStore.t) (records : list Rec.t) (r : Rec.t)
    (tail : TailState.t) (anchor : option Anchor.t) :
  file_holds s records →
  file_holds (fileStore.writeTailLocked
                (match anchor with
                 | Some a => fileStore.writeAnchorLocked (fileStore.writeRecordLocked s r) a
                 | None => fileStore.writeRecordLocked s r
                 end) tail) (records ++ [r]).
Proof.
  unfold file_holds. intros Hholds.
  rewrite fmap_app, concat_app. cbn [fmap list_fmap concat]. rewrite app_nil_r.
  destruct anchor; cbn [fileStore.writeTailLocked fileStore.writeAnchorLocked
                        fileStore.writeRecordLocked fileStore.logFile];
    now rewrite Hholds.
Qed.

Lemma sqliteStore_Append_check (s : sqliteStore.t) (M : Z) (r : Rec.t)
    (tail : TailState.t) (anchor : option Anchor.t) :
  max_index_is M (map_to_list (sqliteStore.logs s)).*1 →
  0 ≤ M < 2 ^ 64 →
  (M ≠ u64 (Rec.Index r - 1) →
   sqliteStore.Append s r tail anchor = (s, Some (ENonContiguous M (Rec.Index r))))
  ∧ (M = u64 (Rec.Index r - 1) →
     ¬ is_non_contiguous (sqliteStore.Append s r tail anchor).2).
Proof.
  intros HM HMrange. apply max_idx_is_max in HM.
  unfold sqliteStore.Append. rewrite HM, (u64_small M) by done.
  split; intros HMr.
  - apply Z.eqb_neq in HMr. now rewrite HMr.
  - apply Z.eqb_eq in HMr. rewrite HMr. cbn [negb].
    intros (have & got & Herr).
    unfold sqliteStore.arg_uint64 in Herr.
    destruct (Rec.Index r <? 2 ^ 63); [|discriminate].
    destruct (sqliteStore.logs s !! Rec.Index r); [discriminate|].
    destruct anchor as [a|].
    + destruct (Anchor.Index a <? 2 ^ 63); [|discriminate].
      destruct (TailState.Index tail <? 2 ^ 63); discriminate.
    + destruct (TailState.Index tail <? 2 ^ 63); discriminate.
Qed.

(** C7: in the file store and in the SQLite store, [Append] fails with the
    non-contiguous-append error exactly when the current maximum stored
    record index (0 for an empty store) is not [record.Index − 1] (in
    [uint64] arithmetic); a store without records accepts exactly the
    index 1. *)
Theorem store_Append_contiguity (r : Rec.t) (tail : TailState.t)
    (anchor : option Anchor.t) :
  0 ≤ Rec.Index r < 2 ^ 64 →
  (∀ (s : fileStore.t) (records : list Rec.t) (M : Z),
     file_holds s records → Forall wf_record records →
     StronglySorted Z.le (Rec.Index <$> records) →
     max_index_is M (Rec.Index <$> records) →
     (is_non_contiguous (fileStore.Append s r tail anchor).2
      ↔ M ≠ u64 (Rec.Index r - 1))
     ∧ (M ≠ u64 (Rec.Index r - 1) →
        fileStore.Append s r tail anchor
        = (s, Some (ENonContiguous M (Rec.Index r))))
     ∧ (M = u64 (Rec.Index r - 1) →
        ∃ s', fileStore.Append s r tail anchor = (s', None)
              ∧ file_holds s' (records ++ [r]))
     ∧ (records = [] →
        (fileStore.Append s r tail anchor).2 = None ↔ Rec.Index r = 1))
  ∧ (∀ (s : sqliteStore.t) (M : Z),
       max_index_is M (map_to_list (sqliteStore.logs s)).*1 →
       (∀ k, k ∈ (map_to_list (sqliteStore.logs s)).*1 → 0 ≤ k < 2 ^ 63) →
       (is_non_contiguous (sqliteStore.Append s r tail anchor).2
        ↔ M ≠ u64 (Rec.Index r - 1))
       ∧ (M ≠ u64 (Rec.Index r - 1) →
          sqliteStore.Append s r tail anchor
          = (s, Some (ENonContiguous M (Rec.Index r))))
       ∧ (sqliteStore.logs s = ∅ →
          is_non_contiguous (sqliteStore.Append s r tail anchor).2
          ↔ Rec.Index r ≠ 1)).
Proof.
  intros Hidx. split.
  - intros s records M Hholds Hwf Hsorted HM.
    pose proof (fileStore_Append_check s records M r tail anchor
                  Hholds Hwf Hsorted HM) as Happ.
    rewrite Happ. destruct (Z.eqb_spec M (u64 (Rec.Index r - 1))) as [Heq|Hne];
      cbn [negb snd].
    + split; [|split; [|split]].
      * split; [intros (have & got & [=]) | done].
      * done.
      * intros _. eexists. split; [reflexivity|]. now apply file_holds_Append.
      * intros ->. destruct HM as [[_ ->] | [HM _]]; [|inversion HM].
        symmetry in Heq. apply u64_pred_zero in Heq; [|done]. done.
    + split; [|split; [|split]].
      * split; [done | intros _; red; eauto].
      * done.
      * done.
      * intros ->. destruct HM as [[_ ->] | [HM _]]; [|inversion HM].
        split; [discriminate|]. intros H1. destruct Hne. symmetry.
        now apply u64_pred_zero.
  - intros s M HM Hkeys.
    assert (HMrange : 0 ≤ M < 2 ^ 64).
    { destruct HM as [[_ ->] | [HM _]]; [lia|]. apply Hkeys in HM. lia. }
    pose proof (sqliteStore_Append_check s M r tail anchor HM HMrange)
      as [Hfail Hpass].
    assert (Hiff : is_non_contiguous (sqliteStore.Append s r tail anchor).2
                   ↔ M ≠ u64 (Rec.Index r - 1)).
    { split.
      - intros Hnc Heq. now apply Hpass.
      - intros Hne. rewrite (Hfail Hne). red. eauto. }
    split; [exact Hiff|]. split; [exact Hfail|].
    intros Hempty. rewrite Hiff.
    rewrite Hempty, map_to_list_empty in HM.
    destruct HM as [[_ ->] | [HM _]]; [|inversion HM].
    split.
    + intros Hne H1. apply Hne. symmetry. now apply u64_pred_zero.
    + intros Hne Heq. apply Hne. symmetry in Heq. now apply u64_pred_zero in Heq.
Qed.

Lemma sample_store_holds : file_holds sample_store sample_records.
Proof. vm_compute. reflexivity. Qed.

Lemma sample_records_wf : Forall wf_record sample_records.
Proof. apply (bool_decide_unpack _). vm_compute. reflexivity. Qed.

Lemma sample_records_indices : Rec.Index <$> sample_records = [1; 2; 3].
Proof. vm_compute. reflexivity. Qed.

Lemma sample_sql_keys :
  max_index_is 3 (map_to_list (sqliteStore.logs sample_sql_store)).*1
  ∧ ∀ k, k ∈ (map_to_list (sqliteStore.logs sample_sql_store)).*1 → 0 ≤ k < 2 ^ 63.
Proof.
  assert (Hkeys : ∀ k, k ∈ (map_to_list (sqliteStore.logs sample_sql_store)).*1
                       → k = 1 ∨ k = 2 ∨ k = 3).
  { intros k Hk.
    assert (Hall : Forall (λ k, k = 1 ∨ k = 2 ∨ k = 3)
                     (map_to_list (sqliteStore.logs sample_sql_store)).*1)
      by (apply (bool_decide_unpack _); vm_compute; reflexivity).
    rewrite Forall_forall in Hall. now apply Hall. }
  split.
  - right. split; [apply (bool_decide_unpack _); vm_compute; reflexivity|].
    intros k Hk. apply Hkeys in Hk. lia.
  - intros k Hk. apply Hkeys in Hk. lia.
Qed.

Lemma store_Append_contiguity_witness :
  0 ≤ Rec.Index sample_next < 2 ^ 64
  ∧ 0 ≤ Rec.Index sample_again < 2 ^ 64
  ∧ (∃ s', fileStore.Append sample_store sample_next sample_tail None = (s', None)
           ∧ file_holds s' (sample_records ++ [sample_next]))
  ∧ fileStore.Append sample_store sample_again sample_tail None
    = (sample_store, Some (ENonContiguous 3 1))
  ∧ sqliteStore.Append sample_sql_store sample_again sample_tail None
    = (sample_sql_store, Some (ENonContiguous 3 1)).
Proof.
  assert (Hnext : 0 ≤ Rec.Index sample_next < 2 ^ 64) by (simpl; lia).
  assert (Hagain : 0 ≤ Rec.Index sample_again < 2 ^ 64) by (simpl; lia).
  assert (Hsorted : StronglySorted Z.le (Rec.Index <$> sample_records)).
  { rewrite sample_records_indices. repeat constructor; lia. }
  assert (Hmax : max_index_is 3 (Rec.Index <$> sample_records)).
  { rewrite sample_records_indices. right. split; [repeat constructor|].
    intros k Hk. repeat (apply elem_of_cons in Hk as [->|Hk]; [lia|]).
    inversion Hk. }
  split; [exact Hnext|]. split; [exact Hagain|]. split; [|split].
  - exact (proj1 (proj2 (proj2
             (proj1 (store_Append_contiguity sample_next sample_tail None Hnext)
                sample_store sample_records 3 sample_store_holds sample_records_wf
                Hsorted Hmax))) eq_refl).
  - exact (proj1 (proj2
             (proj1 (store_Append_contiguity sample_again sample_tail None Hagain)
                sample_store sample_records 3 sample_store_holds sample_records_wf
                Hsorted Hmax)) ltac:(discriminate)).
  - exact (proj1 (proj2
             (proj2 (store_Append_contiguity sample_again sample_tail None Hagain)
                sample_sql_store 3 (proj1 sample_sql_keys) (proj2 sample_sql_keys)))
             ltac:(discriminate)).
Defined.

(** ** Where the code leaves the specification *)

(** A failed [Append] restores the index and leaves the aggregates alone,
    and it keeps the evolved keys. *)
Lemma Append_failure {St : Type} `{Store St} (l l' : Logger.t) (st st' : St)
    (msg : bytes) (ts : Z) (e : Entry.t) (err : error) :
  0 ≤ Logger.i l < 2 ^ 64 →
  Append l st msg ts = (l', st', (e, Some err)) →
  l' = Logger.mk (Logger.cfg l) (Logger.i l)
                 (sha256.Sum256 (Logger.keyV l)) (sha256.Sum256 (Logger.keyT l))
                 (Logger.tagV l) (Logger.tagT l).
Proof.
  intros Hi. unfold Append, Append_prepare.
  destruct (store_Append st _ _ _) as [st1 [err1|]]; [|discriminate].
  intros [= <- _ _ _]. cbn [Logger.cfg Logger.i Logger.keyV Logger.keyT
                           Logger.tagV Logger.tagT]. unfold fwdKey. f_equal.
  unfold u64. rewrite Zminus_mod_idemp_l.
  replace (Logger.i l + 1 - 1) with (Logger.i l) by lia. now apply Z.mod_small.
Qed.

(** C3, at a failing input: a logger with the sample seeds, created on a
    store that already holds three records.  Its first [Append] fails with
    the non-contiguous error; afterwards the index and the aggregates are
    those before the call, the two keys are not. *)
Theorem failed_Append_keeps_evolved_keys :
  let '(l', st', (_, err)) := sample_failed in
  err = Some (ENonContiguous 3 1)
  ∧ st' = sample_store
  ∧ Logger.i l' = Logger.i sample_logger
  ∧ Logger.tagV l' = Logger.tagV sample_logger
  ∧ Logger.tagT l' = Logger.tagT sample_logger
  ∧ Logger.keyV l' = sha256.Sum256 sample_A0
  ∧ Logger.keyT l' = sha256.Sum256 sample_B0
  ∧ Logger.keyV l' ≠ Logger.keyV sample_logger
  ∧ Logger.keyT l' ≠ Logger.keyT sample_logger
  ∧ l' ≠ sample_logger.
Proof.
  vm_compute. repeat split; discriminate.
Qed.

Lemma CloseProtocol_zeroes_keys {St : Type} `{Store St} (l l' : Logger.t)
    (st st' : St) (logID : string) (now : Z) (closeMsg : CloseMessage.t) :
  CloseProtocol l st logID now = (l', st', (closeMsg, None)) →
  Logger.keyV l' = zero32 ∧ Logger.keyT l' = zero32.
Proof.
  unfold CloseProtocol.
  destruct (Append l st _ now) as [[l1 st1] [e [err|]]]; [discriminate|].
  intros [= <- _ _]. split; reflexivity.
Qed.

(** C4, at a failing input: after [CloseProtocol] on the sample run both
    keys are zero, and the next [Append] is accepted: it returns no error
    and stores a fifth record. *)
Theorem Append_after_CloseProtocol_succeeds :
  let '(lc, sc, (closeMsg, cerr)) := sample_closed in
  let '(l', st', (entry, err)) := sample_after_close in
  cerr = None
  ∧ CloseMessage.FinalIndex closeMsg = 4
  ∧ Logger.keyV lc = zero32 ∧ Logger.keyT lc = zero32
  ∧ err = None
  ∧ Entry.Index entry = 5
  ∧ Rec.Index <$> (store_Iter st' 1).1 = [1; 2; 3; 4; 5]
  ∧ TailState.Index (store_Tail st').1.1 = 5.
Proof.
  vm_compute. repeat split; reflexivity.
Qed.

(** The verifier returns its result variable [lastTag], which is still the
    zero value when there are no records. *)
Lemma VerifyChain_nil (startIdx : Z) (kStart tStart : bytes) (use : bool) :
  VerifyChain [] startIdx kStart tStart use = (zero32, None).
Proof. reflexivity. Qed.

(** C8, at a failing input: two appends with an anchor every two records.
    The anchor of index 2 is the tail of the store; no record follows it,
    the verifier returns the zero block instead of the anchor's aggregate,
    and [VerifyFromAnchor] reports a tag mismatch. *)
Theorem VerifyFromAnchor_at_tail_fails :
  let a := sample_tail_anchor in
  let tail := (store_Tail sample_two_store).1.1 in
  store_AnchorAt sample_two_store 2 = (a, true, None)
  ∧ Anchor.Index a = TailState.Index tail
  ∧ Anchor.TagV a = TailState.TagV tail
  ∧ (store_Iter sample_two_store (u64 (Anchor.Index a + 1))).1 = []
  ∧ VerifyFrom [] (Anchor.Index a) (Anchor.Key a) (Anchor.TagV a) = (zero32, None)
  ∧ Anchor.TagV a ≠ zero32
  ∧ VerifyFromAnchor sample_two_store a = Some ErrTagMismatch.
Proof.
  vm_compute. repeat split; discriminate || reflexivity.
Qed.

(** For a decodable request the handler answers 200; in the structured
    encoding a failed verification carries the text of the error. *)
Lemma HandleVerify_decodable (ts : TrustedServer.t) (r : Request.t) :
  decodable r →
  ∃ resp, HandleVerify ts r = Some resp ∧ Response.Code resp = StatusOK
    ∧ (isProtobuf r = true →
       ∀ logID records err,
         decodeVerifyRequest r = Some (logID, records, None) →
         FinalVerify ts logID records = Some err →
         Response.Payload resp = PProto false (Error err)).
Proof.
  intros (Hpost & logID & records & Hdec). unfold HandleVerify.
  rewrite Hpost, String.eqb_refl, Hdec. cbn [negb].
  unfold encodeVerifyResponse.
  destruct (FinalVerify ts logID records) as [err|] eqn:Hfinal;
    destruct (isProtobuf r) eqn:Hproto; eexists; (split; [reflexivity|]);
    (split; [reflexivity|]); try discriminate.
  - intros _ logID' records' err' [= <- <-]. rewrite Hfinal. now intros [= <-].
  - intros _ logID' records' err' [= <- <-]. rewrite Hfinal. discriminate.
Qed.

(** C9, at a failing input: the request of the server test, records of a
    log that is not registered, in the native encoding.  The answer is 200
    with [verified = false]; the object has no [error_message], and its
    [status] field reads "verified". *)
Theorem HandleVerify_native_failure_has_no_error_message :
  decodable sample_request
  ∧ FinalVerify NewTrustedServer "unknown-log"
      [Rec.mk 1 0 (list_byte_of_string "test") zero32 zero32]
    = Some (ENew "log not registered with trusted server")
  ∧ HandleVerify NewTrustedServer sample_request
    = Some (Response.mk 200 "application/json"
              (PJSON [ ("log_id", JString "unknown-log");
                       ("status", JString "verified");
                       ("verified", JBool false) ])).
Proof.
  split; [|split; vm_compute; reflexivity].
  split; [reflexivity|]. eexists _, _. vm_compute. reflexivity.
Qed.

(** * Further properties of the code *)

(** ** Comparison and MAC helpers *)

(** X1: [constantTimeEqual] (and [hmacEqual], the same loop) is equality of
    byte slices; slices of different lengths are unequal. *)
Theorem constantTimeEqual_iff (a b : bytes) :
  (constantTimeEqual a b = true ↔ a = b)
  ∧ (length a ≠ length b → constantTimeEqual a b = false).
Proof.
  split; [apply constantTimeEqual_true|].
  intros Hlen. destruct (constantTimeEqual a b) eqn:Heq; [|reflexivity].
  apply constantTimeEqual_true in Heq. now subst.
Qed.

Lemma constantTimeEqual_iff_witness :
  length [x01] ≠ length [x01; x02]
  ∧ constantTimeEqual [x01] [x01; x02] = false.
Proof.
  assert (Hlen : length [x01] ≠ length [x01; x02]) by (simpl; lia).
  split; [exact Hlen|]. exact (proj2 (constantTimeEqual_iff _ _) Hlen).
Defined.

(** X2: [mac] does not see where one chunk ends and the next begins: it is the
    MAC of the concatenation of its chunks. *)
Theorem mac_ignores_chunking (key : bytes) (chunks1 chunks2 : list bytes) :
  concat chunks1 = concat chunks2 → mac key chunks1 = mac key chunks2.
Proof.
  intros Hcat. now rewrite !mac_concat, Hcat.
Qed.

Lemma mac_ignores_chunking_witness :
  concat [list_byte_of_string "ab"; list_byte_of_string "c"]
    = concat [list_byte_of_string "a"; list_byte_of_string "bc"]
  ∧ mac sample_A0 [list_byte_of_string "ab"; list_byte_of_string "c"]
    = mac sample_A0 [list_byte_of_string "a"; list_byte_of_string "bc"].
Proof.
  split; [reflexivity|]. apply mac_ignores_chunking. reflexivity.
Defined.

(** ** What the chain verifier accepts *)

Lemma expected_indices_S (e : Z) (n : nat) :
  expected_indices e (S n) = u64 (e + 1) :: expected_indices (u64 (e + 1)) n.
Proof.
  unfold expected_indices. rewrite seqZ_cons by lia. cbn [fmap list_fmap]. f_equal.
  replace (Z.pred (Z.of_nat (S n))) with (Z.of_nat n) by lia.
  rewrite <- (fmap_add_seqZ 1 1), <- list_fmap_compose.
  apply list_fmap_ext. intros _ j _. simpl.
  unfold u64. rewrite Zplus_mod_idemp_l. f_equal. lia.
Qed.

Lemma VerifyChain_loop_accepts (use : bool) (records : list Rec.t) :
  ∀ (key prev : bytes) (expect : Z) (lastTag : bytes),
    ((VerifyChain_loop records key prev expect lastTag use).2 = None
     ↔ Rec.Index <$> records = expected_indices expect (length records)
       ∧ stored_tag use <$> records = chain_tags key prev records)
    ∧ ((VerifyChain_loop records key prev expect lastTag use).2 = None →
       (VerifyChain_loop records key prev expect lastTag use).1
       = default lastTag (last (chain_tags key prev records))).
Proof.
  induction records as [|r records IH]; intros key prev expect lastTag.
  - split; [split; [intros _; split; reflexivity | reflexivity] | reflexivity].
  - cbn [VerifyChain_loop length fmap list_fmap chain_tags].
    rewrite expected_indices_S, mac_three, fold_concat. unfold htag.
    set (key' := sha256.Sum256 key).
    set (μ := if isZero32 prev then _ else _).
    fold (stored_tag use r).
    destruct (Z.eqb_spec (Rec.Index r) (u64 (expect + 1))) as [Hidx|Hidx]; cbn [negb].
    2: { split; [split; [discriminate | intros [[= ?] _]; done] | discriminate]. }
    destruct (constantTimeEqual μ (stored_tag use r)) eqn:Htag; cbn [negb].
    2: { split; [split; [discriminate|] | discriminate].
         intros [_ [= Hst _]]. rewrite Hst, constantTimeEqual_refl in Htag.
         discriminate. }
    apply constantTimeEqual_true in Htag.
    destruct (IH key' μ (u64 (expect + 1)) μ) as [IHiff IHtag]. split.
    + rewrite IHiff, <- Htag, <- Hidx. split.
      * intros [-> ->]. split; reflexivity.
      * intros [[= Hi] [= Ht]]. split; assumption.
    + intros Hok. rewrite (IHtag Hok).
      destruct (chain_tags key' μ records) as [|x xs] eqn:Hct; [reflexivity|].
      change (last (μ :: x :: xs)) with (last (x :: xs)).
      destruct (last (x :: xs)) eqn:Hlast; [reflexivity|].
      apply last_None in Hlast. discriminate.
Qed.

(** X3: [VerifyChain] returns no error exactly for records whose indices are
    contiguous after [startIdx] and whose stored tags are the aggregates
    of the recurrence; the tag it then returns is the last aggregate (the
    zero block when there are no records). *)
Theorem VerifyChain_accepts_iff (records : list Rec.t) (startIdx : Z)
    (kStart tStart : bytes) (use : bool) :
  ((VerifyChain records startIdx kStart tStart use).2 = None
   ↔ Rec.Index <$> records = expected_indices startIdx (length records)
     ∧ stored_tag use <$> records = chain_tags kStart tStart records)
  ∧ ((VerifyChain records startIdx kStart tStart use).2 = None →
     (VerifyChain records startIdx kStart tStart use).1
     = default zero32 (last (chain_tags kStart tStart records))).
Proof. apply VerifyChain_loop_accepts. Qed.

Lemma VerifyChain_accepts_iff_witness :
  (VerifyChain sample_records 0 sample_A0 zero32 true).2 = None
  ∧ Rec.Index <$> sample_records = expected_indices 0 (length sample_records)
  ∧ stored_tag true <$> sample_records = chain_tags sample_A0 zero32 sample_records
  ∧ (VerifyChain sample_records 0 sample_A0 zero32 true).1
    = default zero32 (last (chain_tags sample_A0 zero32 sample_records)).
Proof.
  assert (Hok : (VerifyChain sample_records 0 sample_A0 zero32 true).2 = None)
    by (vm_compute; reflexivity).
  pose proof (VerifyChain_accepts_iff sample_records 0 sample_A0 zero32 true)
    as [Hiff Htag].
  split; [exact Hok|]. split; [exact (proj1 (proj1 Hiff Hok))|].
  split; [exact (proj2 (proj1 Hiff Hok)) | exact (Htag Hok)].
Defined.

Lemma VerifyChain_loop_u64_expect (records : list Rec.t) (key prev : bytes)
    (expect : Z) (lastTag : bytes) (use : bool) :
  VerifyChain_loop records key prev (u64 expect) lastTag use
  = VerifyChain_loop records key prev expect lastTag use.
Proof.
  destruct records as [|r records]; [reflexivity|]. cbn [VerifyChain_loop].
  replace (u64 (u64 expect + 1)) with (u64 (expect + 1)); [reflexivity|].
  unfold u64. now rewrite Zplus_mod_idemp_l.
Qed.

(** Verifying a sequence whose front part passes continues on the rest
    with the key, aggregate and index reached. *)
Lemma VerifyChain_loop_app (use : bool) (good more : list Rec.t) :
  ∀ (key prev : bytes) (expect : Z) (lastTag tg : bytes),
    VerifyChain_loop good key prev expect lastTag use = (tg, None) →
    VerifyChain_loop (good ++ more) key prev expect lastTag use
    = VerifyChain_loop more (Nat.iter (length good) sha256.Sum256 key)
        (if good is [] then prev else tg)
        (u64 (expect + Z.of_nat (length good))) tg use.
Proof.
  induction good as [|r good IH]; intros key prev expect lastTag tg Hgood.
  - injection Hgood as <-. cbn [app length Nat.iter].
    rewrite VerifyChain_loop_u64_expect. f_equal. simpl. lia.
  - cbn [app VerifyChain_loop] in *.
    destruct (negb (Rec.Index r =? u64 (expect + 1))); [discriminate|].
    destruct (negb (constantTimeEqual _ _)); [discriminate|].
    rewrite (IH _ _ _ _ _ Hgood). cbn [length]. rewrite Nat.iter_succ_r.
    replace (u64 (u64 (expect + 1) + Z.of_nat (length good)))
      with (u64 (expect + Z.of_nat (S (length good))))
      by (unfold u64; rewrite Zplus_mod_idemp_l; f_equal; lia).
    destruct good as [|r' good]; [|reflexivity].
    now injection Hgood as <-.
Qed.

Lemma VerifyChain_loop_lastTag (use : bool) (records : list Rec.t)
    (key prev : bytes) (expect : Z) (lastTag1 lastTag2 : bytes) :
  (VerifyChain_loop records key prev expect lastTag1 use).2
  = (VerifyChain_loop records key prev expect lastTag2 use).2
  ∧ (records ≠ [] →
     (VerifyChain_loop records key prev expect lastTag1 use).2 = None →
     (VerifyChain_loop records key prev expect lastTag1 use).1
     = (VerifyChain_loop records key prev expect lastTag2 use).1).
Proof.
  destruct records as [|r records]; [split; [reflexivity | done]|].
  cbn [VerifyChain_loop].
  destruct (negb (Rec.Index r =? u64 (expect + 1))); [split; [reflexivity | discriminate]|].
  destruct (negb (constantTimeEqual _ _)); [split; [reflexivity | discriminate]|].
  split; reflexivity.
Qed.

Lemma chain_tags_app (key prev : bytes) (a b : list Rec.t) :
  chain_tags key prev (a ++ b)
  = chain_tags key prev a
    ++ chain_tags (Nat.iter (length a) sha256.Sum256 key)
                  (default prev (last (chain_tags key prev a))) b.
Proof.
  revert key prev. induction a as [|r a IH]; intros key prev; [reflexivity|].
  cbn [app chain_tags length]. rewrite IH, Nat.iter_succ_r. cbn [app]. do 3 f_equal.
  destruct (chain_tags _ _ a) as [|x xs] eqn:Hct; [reflexivity|].
  match goal with |- _ = default _ (last (?m :: x :: xs)) =>
    change (last (m :: x :: xs)) with (last (x :: xs)) end.
  destruct (last (x :: xs)) eqn:Hlast; [reflexivity|].
  apply last_None in Hlast. discriminate.
Qed.

(** X4: The verifier fails fast: when the records before [bad] pass with the
    tag [tg], a wrong index of [bad] gives [ErrGap] and a right index with
    a stored tag that is not the next aggregate gives [ErrTagMismatch];
    either way the tag returned with the error is [tg]. *)
Theorem VerifyChain_fails_at_first_bad_record (good rest : list Rec.t)
    (bad : Rec.t) (startIdx : Z) (kStart tStart tg : bytes) (use : bool) :
  VerifyChain good startIdx kStart tStart use = (tg, None) →
  let next := u64 (startIdx + Z.of_nat (length good) + 1) in
  (Rec.Index bad ≠ next →
   VerifyChain (good ++ bad :: rest) startIdx kStart tStart use = (tg, Some ErrGap))
  ∧ (Rec.Index bad = next →
     Some (stored_tag use bad) ≠ last (chain_tags kStart tStart (good ++ [bad])) →
     VerifyChain (good ++ bad :: rest) startIdx kStart tStart use
     = (tg, Some ErrTagMismatch)).
Proof.
  intros Hgood next. unfold VerifyChain in *.
  rewrite (VerifyChain_loop_app use good (bad :: rest) _ _ _ _ _ Hgood).
  cbn [VerifyChain_loop].
  replace (u64 (u64 (startIdx + Z.of_nat (length good)) + 1)) with next
    by (subst next; unfold u64; now rewrite Zplus_mod_idemp_l).
  split.
  - intros Hidx. apply Z.eqb_neq in Hidx. now rewrite Hidx.
  - intros Hidx Htag. rewrite Hidx, Z.eqb_refl. cbn [negb].
    rewrite chain_tags_app, last_app in Htag. cbn [chain_tags last] in Htag.
    fold (stored_tag use bad). rewrite mac_three, fold_concat. unfold htag.
    assert (Hprev : default tStart (last (chain_tags kStart tStart good))
                    = if good is [] then tStart else tg).
    { destruct good as [|g good]; [reflexivity|].
      pose proof (proj2 (VerifyChain_loop_accepts use (g :: good) kStart tStart
                           startIdx zero32)) as Hlast.
      rewrite Hgood in Hlast. specialize (Hlast eq_refl). cbn [fst] in Hlast.
      rewrite Hlast.
      destruct (last (chain_tags kStart tStart (g :: good))) eqn:Hl; [reflexivity|].
      apply last_None in Hl. discriminate. }
    rewrite Hprev, Hidx in Htag.
    destruct (constantTimeEqual _ _) eqn:Heq; [|reflexivity].
    apply constantTimeEqual_true in Heq. rewrite <- Heq in Htag. done.
Qed.

Lemma VerifyChain_fails_at_first_bad_record_witness :
  VerifyChain (take 2 sample_records) 0 sample_A0 zero32 true
    = (Rec.TagV (default Rec.zero (sample_records !! 1%nat)), None)
  ∧ VerifyChain (take 2 sample_records ++ [sample_again]) 0 sample_A0 zero32 true
    = (Rec.TagV (default Rec.zero (sample_records !! 1%nat)), Some ErrGap)
  ∧ VerifyChain (take 2 sample_records ++ [Rec.mk 3 0 [] zero32 zero32])
      0 sample_A0 zero32 true
    = (Rec.TagV (default Rec.zero (sample_records !! 1%nat)), Some ErrTagMismatch).
Proof.
  assert (Hgood : VerifyChain (take 2 sample_records) 0 sample_A0 zero32 true
                  = (Rec.TagV (default Rec.zero (sample_records !! 1%nat)), None))
    by (vm_compute; reflexivity).
  split; [exact Hgood|]. split.
  - apply (proj1 (VerifyChain_fails_at_first_bad_record _ [] sample_again _ _ _ _ _
                    Hgood)).
    vm_compute. discriminate.
  - apply (proj2 (VerifyChain_fails_at_first_bad_record _ []
                    (Rec.mk 3 0 [] zero32 zero32) _ _ _ _ _ Hgood)).
    + vm_compute. reflexivity.
    + vm_compute. discriminate.
Defined.

(** X5: Verification can be resumed: when the non-empty records [good]
    pass and end with the tag [tg], verifying [good ++ more] from the start
    gives the same verdict as verifying [more] from the index, key and tag
    reached after [good].  The returned tags agree when [more] is not empty
    and passes; for an empty [more] the full run returns [tg] and the
    resumed run the zero block. *)
Theorem VerifyChain_resume (good more : list Rec.t) (startIdx : Z)
    (kStart tStart tg : bytes) (use : bool) :
  good ≠ [] →
  VerifyChain good startIdx kStart tStart use = (tg, None) →
  let resumed :=
    VerifyChain more (u64 (startIdx + Z.of_nat (length good)))
                (Nat.iter (length good) sha256.Sum256 kStart) tg use in
  (VerifyChain (good ++ more) startIdx kStart tStart use).2 = resumed.2
  ∧ (more ≠ [] → resumed.2 = None →
     (VerifyChain (good ++ more) startIdx kStart tStart use).1 = resumed.1)
  ∧ (more = [] →
     VerifyChain (good ++ more) startIdx kStart tStart use = (tg, None)
     ∧ resumed = (zero32, None)).
Proof.
  intros Hne Hgood resumed. subst resumed. split; [|split].
  3: { intros ->. rewrite app_nil_r. split; [exact Hgood | reflexivity]. }
  all: unfold VerifyChain in *.
  all: rewrite (VerifyChain_loop_app use good more _ _ _ _ _ Hgood).
  all: destruct good as [|g good]; [done|].
  all: pose proof (VerifyChain_loop_lastTag use more
                     (Nat.iter (length (g :: good)) sha256.Sum256 kStart) tg
                     (u64 (startIdx + Z.of_nat (length (g :: good)))) tg zero32)
         as [Herr Htag].
  - exact Herr.
  - intros Hmore Hok. apply Htag; [done|]. now rewrite Herr.
Qed.

Lemma VerifyChain_resume_witness :
  take 2 sample_records ≠ []
  ∧ (VerifyChain (take 2 sample_records ++ drop 2 sample_records) 0 sample_A0 zero32 true).1
    = (VerifyChain (drop 2 sample_records) 2
         (Nat.iter 2 sha256.Sum256 sample_A0)
         (Rec.TagV (default Rec.zero (sample_records !! 1%nat))) true).1.
Proof.
  assert (Hne : take 2 sample_records ≠ []) by (vm_compute; discriminate).
  assert (Hgood : VerifyChain (take 2 sample_records) 0 sample_A0 zero32 true
                  = (Rec.TagV (default Rec.zero (sample_records !! 1%nat)), None))
    by (vm_compute; reflexivity).
  split; [exact Hne|].
  apply (proj1 (proj2 (VerifyChain_resume _ (drop 2 sample_records) _ _ _ _ _
                        Hne Hgood))).
  - vm_compute. discriminate.
  - vm_compute. reflexivity.
Defined.

(** ** Anchors of the logger *)



(** ** The file store reads back what it wrote *)

Lemma int64_round_trip (ts : Z) :
  - 2 ^ 63 ≤ ts < 2 ^ 63 →
  (if u64 ts <? 2 ^ 63 then u64 ts else u64 ts - 2 ^ 64) = ts.
Proof.
  intros Hts. unfold u64. destruct (Z.ltb_spec ts 0).
  - replace (ts mod 2 ^ 64) with (ts + 2 ^ 64).
    + destruct (Z.ltb_spec (ts + 2 ^ 64) (2 ^ 63)); lia.
    + apply (Z.mod_unique_pos _ _ (-1)); lia.
  - rewrite Z.mod_small by lia. destruct (Z.ltb_spec ts (2 ^ 63)); lia.
Qed.

(** One round of the reader of [Iter] decodes one record. *)
Lemma Iter_loop_record (fuel : nat) (r : Rec.t) (rest : bytes) (startIdx : Z) :
  wf_stored r →
  fileStore.Iter_loop (S fuel) (fileStore.recordBytes r ++ rest) startIdx
  = if startIdx <=? Rec.Index r
    then r :: fileStore.Iter_loop fuel rest startIdx
    else fileStore.Iter_loop fuel rest startIdx.
Proof.
  intros [(Hidx & Hmsg & HV & HT) Hts]. unfold fileStore.recordBytes.
  unfold u32. rewrite (Z.mod_small (Z.of_nat _)) by lia.
  rewrite Nat2Z.id, firstn_all. rewrite <- !app_assoc.
  cbn [fileStore.Iter_loop].
  rewrite (proj2 (Nat.ltb_ge _ 8)) by (rewrite length_app, length_PutUint64; lia).
  rewrite !(drop_app_length' (PutUint64 (Rec.Index r)) _ 8) by reflexivity.
  rewrite (proj2 (Nat.ltb_ge _ 8)) by (rewrite length_app, length_PutUint64; lia).
  rewrite !(drop_app_length' (PutUint64 (u64 (Rec.TS r))) _ 8) by reflexivity.
  rewrite (proj2 (Nat.ltb_ge _ 4)) by (rewrite length_app, length_PutUint32; lia).
  rewrite !Uint64_PutUint64 by (done || apply u64_range).
  rewrite !Uint32_PutUint32 by lia.
  rewrite !(drop_app_length' (PutUint32 _) _ 4) by reflexivity.
  rewrite Nat2Z.id.
  rewrite (proj2 (Nat.ltb_ge _ (length (Rec.Msg r)))) by (rewrite length_app; lia).
  rewrite !take_app_length, !drop_app_length.
  rewrite (proj2 (Nat.ltb_ge _ 32)) by (rewrite length_app; lia).
  rewrite !(take_app_length' (Rec.TagV r) _ 32) by done.
  rewrite !(drop_app_length' (Rec.TagV r) _ 32) by done.
  rewrite (proj2 (Nat.ltb_ge _ 32)) by (rewrite length_app; lia).
  rewrite !(take_app_length' (Rec.TagT r) _ 32) by done.
  rewrite !(drop_app_length' (Rec.TagT r) _ 32) by done.
  rewrite int64_round_trip by done.
  now destruct r.
Qed.

Lemma Iter_loop_records (records : list Rec.t) (startIdx : Z) :
  ∀ (fuel : nat),
    Forall wf_stored records →
    (length records ≤ fuel)%nat →
    fileStore.Iter_loop fuel (concat (fileStore.recordBytes <$> records)) startIdx
    = filter (λ r, startIdx ≤ Rec.Index r) records.
Proof.
  induction records as [|r records IH]; intros fuel Hwf Hfuel.
  - destruct fuel; reflexivity.
  - apply Forall_cons in Hwf as [Hr Hwf].
    destruct fuel as [|fuel]; [simpl in Hfuel; lia|].
    cbn [fmap list_fmap concat]. rewrite Iter_loop_record by done.
    rewrite IH by (done || simpl in Hfuel; lia). rewrite filter_cons.
    destruct (Z.leb_spec startIdx (Rec.Index r)); destruct (decide _); done || lia.
Qed.

Lemma wf_stored_record (records : list Rec.t) :
  Forall wf_stored records → Forall wf_record records.
Proof. intros Hwf. eapply Forall_impl; [exact Hwf|]. now intros r [Hr _]. Qed.

(** X7: [Iter(startIdx)] on a log file that holds [records] delivers, without
    an error and in file order, the records with [Index ≥ startIdx]. *)
Theorem fileStore_Iter_reads_records (s : fileStore.t) (records : list Rec.t)
    (startIdx : Z) :
  file_holds s records →
  Forall wf_stored records →
  fileStore.Iter s startIdx = (filter (λ r, startIdx ≤ Rec.Index r) records, None).
Proof.
  intros Hholds Hwf. unfold fileStore.Iter. unfold file_holds in Hholds.
  rewrite Hholds. f_equal. apply Iter_loop_records; [done|].
  apply length_concat_recordBytes. now apply wf_stored_record.
Qed.

Lemma sample_records_stored : Forall wf_stored sample_records.
Proof. apply (bool_decide_unpack _). vm_compute. reflexivity. Qed.

Lemma fileStore_Iter_reads_records_witness :
  file_holds sample_store sample_records
  ∧ Forall wf_stored sample_records
  ∧ fileStore.Iter sample_store 2 = (drop 1 sample_records, None).
Proof.
  split; [exact sample_store_holds|]. split; [exact sample_records_stored|].
  rewrite (fileStore_Iter_reads_records sample_store sample_records 2
             sample_store_holds sample_records_stored).
  vm_compute. reflexivity.
Defined.

Lemma length_anchorBytes (a : Anchor.t) :
  wf_anchor a → length (fileStore.anchorBytes a) = fileStore.anchorEntrySize.
Proof.
  intros (_ & HK & HV & HT). unfold fileStore.anchorBytes.
  rewrite !length_app, length_PutUint64, HK, HV, HT. reflexivity.
Qed.

Lemma parseAnchor_anchorBytes (a : Anchor.t) (rest : bytes) :
  wf_anchor a →
  take fileStore.anchorEntrySize (fileStore.anchorBytes a ++ rest)
    = fileStore.anchorBytes a
  ∧ Uint64 (fileStore.anchorBytes a) = Anchor.Index a
  ∧ fileStore.parseAnchor (fileStore.anchorBytes a) = a.
Proof.
  intros Hwf. pose proof (length_anchorBytes a Hwf) as Hlen.
  destruct Hwf as (Hidx & HK & HV & HT).
  split; [now apply take_app_length'|].
  unfold fileStore.parseAnchor, fileStore.anchorBytes.
  rewrite Uint64_PutUint64 by done. split; [reflexivity|].
  rewrite (drop_app_length' (PutUint64 _) _ 8) by reflexivity.
  rewrite (take_app_length' (Anchor.Key a) _ 32) by done.
  rewrite (drop_app_add' (PutUint64 _) _ 8 32) by reflexivity.
  rewrite (drop_app_length' (Anchor.Key a) _ 32) by done.
  rewrite (take_app_length' (Anchor.TagV a) _ 32) by done.
  rewrite (drop_app_add' (PutUint64 _) _ 8 64) by reflexivity.
  rewrite (drop_app_add' (Anchor.Key a) _ 32 32) by done.
  rewrite (drop_app_length' (Anchor.TagV a) _ 32) by done.
  rewrite take_ge by lia.
  now destruct a.
Qed.

Lemma readAnchor_loop_anchor (fuel : nat) (a : Anchor.t) (rest : bytes) (targetIdx : Z) :
  wf_anchor a →
  fileStore.readAnchor_loop (S fuel) (fileStore.anchorBytes a ++ rest) targetIdx
  = if Anchor.Index a =? targetIdx then (a, true, None)
    else fileStore.readAnchor_loop fuel rest targetIdx.
Proof.
  intros Hwf. pose proof (length_anchorBytes a Hwf) as Hlen.
  destruct (parseAnchor_anchorBytes a rest Hwf) as (Htake & Hidx & Hparse).
  cbn [fileStore.readAnchor_loop].
  rewrite (proj2 (Nat.eqb_neq _ 0))
    by (rewrite length_app, Hlen; unfold fileStore.anchorEntrySize; lia).
  rewrite (proj2 (Nat.ltb_ge _ _)) by (rewrite length_app, Hlen; lia).
  rewrite Htake, Hidx, Hparse.
  now rewrite (drop_app_length' _ _ _ (eq_sym Hlen)).
Qed.

Lemma ListAnchors_loop_anchor (fuel : nat) (a : Anchor.t) (rest : bytes)
    (anchors : list Anchor.t) :
  wf_anchor a →
  fileStore.ListAnchors_loop (S fuel) (fileStore.anchorBytes a ++ rest) anchors
  = fileStore.ListAnchors_loop fuel rest (anchors ++ [a]).
Proof.
  intros Hwf. pose proof (length_anchorBytes a Hwf) as Hlen.
  destruct (parseAnchor_anchorBytes a rest Hwf) as (Htake & Hidx & Hparse).
  cbn [fileStore.ListAnchors_loop].
  rewrite (proj2 (Nat.eqb_neq _ 0))
    by (rewrite length_app, Hlen; unfold fileStore.anchorEntrySize; lia).
  rewrite (proj2 (Nat.ltb_ge _ _)) by (rewrite length_app, Hlen; lia).
  rewrite Htake, Hparse.
  now rewrite (drop_app_length' _ _ _ (eq_sym Hlen)).
Qed.

Lemma length_concat_anchorBytes (anchors : list Anchor.t) :
  Forall wf_anchor anchors →
  (length anchors ≤ length (concat (fileStore.anchorBytes <$> anchors)))%nat.
Proof.
  induction 1 as [|a anchors Ha _ IH]; [reflexivity|].
  cbn [fmap list_fmap concat length]. rewrite length_app, length_anchorBytes by done.
  unfold fileStore.anchorEntrySize. lia.
Qed.

Lemma readAnchor_loop_anchors (anchors : list Anchor.t) (targetIdx : Z) :
  ∀ fuel, Forall wf_anchor anchors → (length anchors < fuel)%nat →
    fileStore.readAnchor_loop fuel (concat (fileStore.anchorBytes <$> anchors)) targetIdx
    = match find (λ a, Anchor.Index a =? targetIdx) anchors with
      | Some a => (a, true, None)
      | None => (Anchor.zero, false, None)
      end.
Proof.
  induction anchors as [|a anchors IH]; intros fuel Hwf Hfuel.
  - destruct fuel; [simpl in Hfuel; lia | reflexivity].
  - apply Forall_cons in Hwf as [Ha Hwf].
    destruct fuel as [|fuel]; [simpl in Hfuel; lia|].
    cbn [fmap list_fmap concat find]. rewrite readAnchor_loop_anchor by done.
    destruct (Anchor.Index a =? targetIdx); [reflexivity|].
    apply IH; [done | simpl in Hfuel; lia].
Qed.

Lemma ListAnchors_loop_anchors (anchors : list Anchor.t) :
  ∀ fuel acc, Forall wf_anchor anchors → (length anchors < fuel)%nat →
    fileStore.ListAnchors_loop fuel (concat (fileStore.anchorBytes <$> anchors)) acc
    = (acc ++ anchors, None).
Proof.
  induction anchors as [|a anchors IH]; intros fuel acc Hwf Hfuel.
  - destruct fuel; [simpl in Hfuel; lia|]. simpl. now rewrite app_nil_r.
  - apply Forall_cons in Hwf as [Ha Hwf].
    destruct fuel as [|fuel]; [simpl in Hfuel; lia|].
    cbn [fmap list_fmap concat]. rewrite ListAnchors_loop_anchor by done.
    rewrite IH by (done || simpl in Hfuel; lia). now rewrite <- app_assoc.
Qed.

(** X8: On an anchor file that holds [anchors], [ListAnchors] returns them in
    file order and [AnchorAt(i)] returns the first anchor with index [i],
    or reports that there is none. *)
Theorem fileStore_reads_anchors (s : fileStore.t) (anchors : list Anchor.t) :
  anchors_hold s anchors →
  Forall wf_anchor anchors →
  fileStore.ListAnchors s = (anchors, None)
  ∧ ∀ i, fileStore.AnchorAt s i
         = match find (λ a, Anchor.Index a =? i) anchors with
           | Some a => (a, true, None)
           | None => (Anchor.zero, false, None)
           end.
Proof.
  intros Hhold Hwf. unfold anchors_hold in Hhold.
  pose proof (length_concat_anchorBytes anchors Hwf) as Hlen.
  unfold fileStore.ListAnchors, fileStore.AnchorAt. rewrite Hhold. split.
  - rewrite ListAnchors_loop_anchors by (done || lia). reflexivity.
  - intros i. apply readAnchor_loop_anchors; [done | lia].
Qed.

Lemma fileStore_reads_anchors_witness :
  anchors_hold sample_store [sample_tail_anchor]
  ∧ Forall wf_anchor [sample_tail_anchor]
  ∧ fileStore.ListAnchors sample_store = ([sample_tail_anchor], None)
  ∧ fileStore.AnchorAt sample_store 2 = (sample_tail_anchor, true, None)
  ∧ fileStore.AnchorAt sample_store 3 = (Anchor.zero, false, None).
Proof.
  assert (Hhold : anchors_hold sample_store [sample_tail_anchor])
    by (vm_compute; reflexivity).
  assert (Hwf : Forall wf_anchor [sample_tail_anchor])
    by (apply (bool_decide_unpack _); vm_compute; reflexivity).
  pose proof (fileStore_reads_anchors sample_store _ Hhold Hwf) as [Hlist Hat].
  split; [exact Hhold|]. split; [exact Hwf|]. split; [exact Hlist|].
  split; [rewrite (Hat 2) | rewrite (Hat 3)]; vm_compute; reflexivity.
Defined.

(** ** Failure and success of [Append] on the stores *)

(** X9: An [Append] that returns an error leaves the store as it was, in the
    file store (whose checks come before its first write) and in the SQLite
    store (whose transaction is rolled back). *)
Theorem store_Append_error_has_no_effect (r : Rec.t) (tail : TailState.t)
    (anchor : option Anchor.t) :
  (∀ (s s' : fileStore.t) (err : error),
     fileStore.Append s r tail anchor = (s', Some err) → s' = s)
  ∧ (∀ (s s' : sqliteStore.t) (err : error),
       sqliteStore.Append s r tail anchor = (s', Some err) → s' = s).
Proof.
  split; intros s s' err.
  - unfold fileStore.Append.
    destruct (fileStore.getLastIndexLocked s) as [lastIdx [e|]]; [now intros [= <- _]|].
    destruct (negb _); [now intros [= <- _] | discriminate].
  - unfold sqliteStore.Append.
    destruct (negb _); [now intros [= <- _]|].
    destruct (sqliteStore.arg_uint64 (Rec.Index r)); [|now intros [= <- _]].
    destruct (sqliteStore.logs s !! _); [now intros [= <- _]|].
    destruct anchor as [a|].
    + destruct (sqliteStore.arg_uint64 (Anchor.Index a)); [|now intros [= <- _]].
      destruct (sqliteStore.arg_uint64 (TailState.Index tail));
        [discriminate | now intros [= <- _]].
    + destruct (sqliteStore.arg_uint64 (TailState.Index tail));
        [discriminate | now intros [= <- _]].
Qed.

Lemma store_Append_error_has_no_effect_witness :
  fileStore.Append sample_store sample_again sample_tail None
    = (sample_store, Some (ENonContiguous 3 1))
  ∧ (fileStore.Append sample_store sample_again sample_tail None).1 = sample_store
  ∧ sqliteStore.Append sample_sql_store sample_again sample_tail None
    = (sample_sql_store, Some (ENonContiguous 3 1)).
Proof.
  assert (Hf : fileStore.Append sample_store sample_again sample_tail None
               = (sample_store, Some (ENonContiguous 3 1))) by (vm_compute; reflexivity).
  split; [exact Hf|]. split.
  - destruct (fileStore.Append sample_store sample_again sample_tail None)
      as [s' err] eqn:Happ.
    injection Hf as -> ->.
    exact (proj1 (store_Append_error_has_no_effect sample_again sample_tail None)
             _ _ _ Happ).
  - vm_compute. reflexivity.
Defined.

(** X10: In both stores [Tail] reports no tail on a new store and, after a
    successful [Append], exactly the tail state that was passed. *)
Theorem store_Tail_after_Append (r : Rec.t) (tail : TailState.t)
    (anchor : option Anchor.t) :
  wf_tail tail →
  fileStore.Tail fileStore.empty = (TailState.zero, false, None)
  ∧ sqliteStore.Tail sqliteStore.empty = (TailState.zero, false, None)
  ∧ (∀ s s' : fileStore.t,
       fileStore.Append s r tail anchor = (s', None) →
       fileStore.Tail s' = (tail, true, None))
  ∧ (∀ s s' : sqliteStore.t,
       sqliteStore.Append s r tail anchor = (s', None) →
       sqliteStore.Tail s' = (tail, true, None)).
Proof.
  intros Hwf. split; [reflexivity|]. split; [reflexivity|]. split.
  - intros s s' Happ. exact (fileStore_tail_law s s' r tail anchor Hwf Happ).
  - intros s s' Happ. exact (sqliteStore_tail_law s s' r tail anchor Hwf Happ).
Qed.

Lemma store_Tail_after_Append_witness :
  wf_tail sample_tail
  ∧ fileStore.Tail (fileStore.Append sample_store sample_next sample_tail None).1
    = (sample_tail, true, None)
  ∧ sqliteStore.Tail (sqliteStore.Append sample_sql_store sample_next sample_tail None).1
    = (sample_tail, true, None).
Proof.
  assert (Hwf : wf_tail sample_tail) by (repeat split; (reflexivity || (simpl; lia))).
  pose proof (store_Tail_after_Append sample_next sample_tail None Hwf)
    as (_ & _ & Hfile & Hsql).
  split; [exact Hwf|]. split.
  - apply (Hfile sample_store). vm_compute. reflexivity.
  - apply (Hsql sample_sql_store). vm_compute. reflexivity.
Defined.

Lemma getLastIndex_loop_prefix (records : list Rec.t) :
  ∀ (fuel : nat) (lastIdx : Z) (rest : bytes),
    Forall wf_record records →
    fileStore.getLastIndex_loop (length records + fuel)
      (concat (fileStore.recordBytes <$> records) ++ rest) lastIdx
    = fileStore.getLastIndex_loop fuel rest
        (default lastIdx (Rec.Index <$> last records)).
Proof.
  induction records as [|r records IH]; intros fuel lastIdx rest Hwf; [reflexivity|].
  apply Forall_cons in Hwf as [Hr Hwf].
  cbn [fmap list_fmap concat length Nat.add]. rewrite <- app_assoc.
  rewrite getLastIndex_loop_record, IH by done.
  destruct records as [|r' records]; [reflexivity|].
  change (last (r :: r' :: records)) with (last (r' :: records)).
  destruct (last (r' :: records)) eqn:Hlast; [reflexivity|].
  apply last_None in Hlast. discriminate.
Qed.

Lemma Iter_loop_prefix (records : list Rec.t) (startIdx : Z) :
  ∀ (fuel : nat) (rest : bytes),
    Forall wf_stored records →
    fileStore.Iter_loop (length records + fuel)
      (concat (fileStore.recordBytes <$> records) ++ rest) startIdx
    = filter (λ r, startIdx ≤ Rec.Index r) records
      ++ fileStore.Iter_loop fuel rest startIdx.
Proof.
  induction records as [|r records IH]; intros fuel rest Hwf; [reflexivity|].
  apply Forall_cons in Hwf as [Hr Hwf].
  cbn [fmap list_fmap concat length Nat.add]. rewrite <- app_assoc.
  rewrite Iter_loop_record, IH, filter_cons by done.
  destruct (Z.leb_spec startIdx (Rec.Index r)); destruct (decide _);
    reflexivity || lia.
Qed.

(** X11: A log file that ends in a torn write (fewer than 8 bytes after the
    last complete record): [Append] refuses to write and reports the short
    read, while [Iter] delivers the complete records without any error. *)
Theorem fileStore_torn_log (s : fileStore.t) (records : list Rec.t) (junk : bytes)
    (r : Rec.t) (tail : TailState.t) (anchor : option Anchor.t) (startIdx : Z) :
  fileStore.logFile s = concat (fileStore.recordBytes <$> records) ++ junk →
  (0 < length junk < 8)%nat →
  Forall wf_stored records →
  fileStore.Append s r tail anchor = (s, Some (EWrap "read index" ErrUnexpectedEOF))
  ∧ fileStore.Iter s startIdx = (filter (λ r, startIdx ≤ Rec.Index r) records, None).
Proof.
  intros Hfile Hjunk Hwf.
  pose proof (length_concat_recordBytes records (wf_stored_record _ Hwf)) as Hlen.
  assert (Hfuel : ∃ fuel, length (fileStore.logFile s)
                          = (length records + S fuel)%nat).
  { exists (length (fileStore.logFile s) - length records - 1)%nat.
    rewrite Hfile, length_app. lia. }
  destruct Hfuel as [fuel Hfuel]. split.
  - unfold fileStore.Append, fileStore.getLastIndexLocked.
    rewrite (proj2 (Nat.eqb_neq _ 0)) by lia.
    rewrite Hfuel, Hfile, getLastIndex_loop_prefix by now apply wf_stored_record.
    cbn [fileStore.getLastIndex_loop].
    rewrite (proj2 (Nat.eqb_neq _ 0)), (proj2 (Nat.ltb_lt _ 8)) by lia.
    reflexivity.
  - unfold fileStore.Iter. rewrite Hfuel, Hfile, Iter_loop_prefix by done.
    cbn [fileStore.Iter_loop]. rewrite (proj2 (Nat.ltb_lt _ 8)) by lia.
    now rewrite app_nil_r.
Qed.

Lemma fileStore_torn_log_witness :
  fileStore.logFile sample_torn_store
    = concat (fileStore.recordBytes <$> sample_records) ++ [x00; x00; x00]
  ∧ fileStore.Append sample_torn_store sample_next sample_tail None
    = (sample_torn_store, Some (EWrap "read index" ErrUnexpectedEOF))
  ∧ fileStore.Iter sample_torn_store 1 = (sample_records, None).
Proof.
  assert (Hfile : fileStore.logFile sample_torn_store
                  = concat (fileStore.recordBytes <$> sample_records) ++ [x00; x00; x00])
    by (vm_compute; reflexivity).
  pose proof (fileStore_torn_log sample_torn_store sample_records [x00; x00; x00]
                sample_next sample_tail None 1 Hfile ltac:(simpl; lia)
                sample_records_stored) as [Happ Hiter].
  split; [exact Hfile|]. split; [exact Happ|].
  rewrite Hiter. vm_compute. reflexivity.
Defined.

(** ** Runs of the logger on the file store *)

Lemma seqZ_sorted (n : nat) : ∀ m : Z, StronglySorted Z.le (seqZ m (Z.of_nat n)).
Proof.
  induction n as [|n IH]; intros m; [constructor|].
  rewrite seqZ_cons by lia.
  replace (Z.pred (Z.of_nat (S n))) with (Z.of_nat n) by lia.
  constructor; [apply IH|].
  apply Forall_forall. intros k Hk. apply elem_of_seqZ in Hk. lia.
Qed.

Lemma seqZ_max_index (k : Z) : 0 ≤ k → max_index_is k (seqZ 1 k).
Proof.
  intros Hk. destruct (decide (k = 0)) as [->|Hne]; [left; done|right].
  split; [apply elem_of_seqZ; lia|].
  intros j Hj. apply elem_of_seqZ in Hj. lia.
Qed.

Lemma seqZ_snoc (k : Z) : 0 ≤ k → seqZ 1 (k + 1) = seqZ 1 k ++ [k + 1].
Proof.
  intros Hk. rewrite seqZ_app by lia.
  replace (1 + k) with (k + 1) by lia. reflexivity.
Qed.

Lemma filter_all {A : Type} (P : A → Prop) `{∀ x, Decision (P x)} (l : list A) :
  Forall P l → filter P l = l.
Proof.
  induction 1 as [|x l Hx _ IH]; [reflexivity|].
  rewrite filter_cons, IH. now destruct (decide (P x)).
Qed.

Lemma filter_none {A : Type} (P : A → Prop) `{∀ x, Decision (P x)} (l : list A) :
  Forall (λ x, ¬ P x) l → filter P l = [].
Proof.
  induction 1 as [|x l Hx _ IH]; [reflexivity|].
  rewrite filter_cons, IH. now destruct (decide (P x)).
Qed.

(** The record of a step, as the file format needs it. *)
Lemma prepare_record_stored (l : Logger.t) (msg : bytes) (ts : Z) :
  wf_input (msg, ts) →
  wf_stored (Append_prepare l msg ts).1.1.2.
Proof.
  intros [Hmsg Hts]. unfold wf_stored, wf_record, Append_prepare.
  cbn [fst snd Rec.Index Rec.Msg Rec.TS Rec.TagV Rec.TagT] in *.
  pose proof (u64_range (Logger.i l + 1)).
  repeat split; try lia; destruct (_ && _); apply length_Sum256.
Qed.

(** One step on a log file that holds the records 1, ..., [Logger.i l]. *)
Lemma fileStore_Append_ok (l : Logger.t) (st : fileStore.t) (records0 : list Rec.t)
    (msg : bytes) (ts : Z) :
  file_holds st records0 → Forall wf_record records0 →
  Rec.Index <$> records0 = seqZ 1 (Logger.i l) →
  0 ≤ Logger.i l < 2 ^ 64 - 1 →
  ∃ l' st' e,
    Append l st msg ts = (l', st', (e, None))
    ∧ file_holds st' (records0 ++ [(Append_prepare l msg ts).1.1.2]).
Proof.
  intros Hholds Hwf Hidx Hi.
  unfold Append, Append_prepare. cbn [fst snd].
  unfold store_Append, fileStore_Store.
  rewrite (fileStore_Append_check st records0 (Logger.i l)); [|done|done| |].
  - cbn [Rec.Index]. rewrite (u64_small (Logger.i l + 1)) by lia.
    replace (Logger.i l + 1 - 1) with (Logger.i l) by lia.
    rewrite (u64_small (Logger.i l)) by lia. rewrite Z.eqb_refl. cbn [negb].
    eexists _, _, _. split; [reflexivity|]. now apply file_holds_Append.
  - rewrite Hidx. replace (Logger.i l) with (Z.of_nat (Z.to_nat (Logger.i l))) by lia.
    apply seqZ_sorted.
  - rewrite Hidx. apply seqZ_max_index. lia.
Qed.

(** A run on a log file that holds the records 1, ..., [Logger.i l] does
    not fail, and the file then holds the records of the run as well. *)
Lemma fileStore_run (inputs : list (bytes * Z)) :
  ∀ (l : Logger.t) (st : fileStore.t) (records0 : list Rec.t),
    file_holds st records0 → Forall wf_stored records0 →
    Rec.Index <$> records0 = seqZ 1 (Logger.i l) →
    0 ≤ Logger.i l → Logger.i l + Z.of_nat (length inputs) < 2 ^ 64 →
    Forall wf_input inputs →
    ∃ l' st' records,
      Appends l st inputs = (l', st', records, None)
      ∧ file_holds st' (records0 ++ records)
      ∧ Forall wf_stored records
      ∧ Rec.Index <$> records
        = seqZ (Logger.i l + 1) (Z.of_nat (length inputs)).
Proof.
  induction inputs as [|[msg ts] inputs IH];
    intros l st records0 Hholds Hwf Hidx Hi Hn Hin.
  - exists l, st, []. rewrite app_nil_r. done.
  - apply Forall_cons in Hin as [Hinput Hin]. cbn [length] in Hn.
    destruct (fileStore_Append_ok l st records0 msg ts Hholds
                (wf_stored_record _ Hwf) Hidx ltac:(lia))
      as (l1 & st1 & e & Happ & Hholds1).
    cbn [Appends]. rewrite Happ.
    apply Append_success in Happ as (_ & Hl1 & Hrec).
    rewrite u64_small in Hrec by lia.
    assert (Hi1 : Logger.i l1 = Logger.i l + 1)
      by (rewrite Hl1; cbn [Logger.i]; apply u64_small; lia).
    pose proof (prepare_record_stored l msg ts Hinput) as Hstored.
    destruct (IH l1 st1 (records0 ++ [(Append_prepare l msg ts).1.1.2]))
      as (l' & st' & records & Hrun & Hholds' & Hwf' & Hidx'); try done.
    + apply Forall_app. split; [done|]. now constructor.
    + rewrite fmap_app, Hidx, Hi1. cbn [fmap list_fmap]. rewrite Hrec.
      symmetry. now apply seqZ_snoc.
    + lia.
    + lia.
    + rewrite Hrun. eexists _, _, _. split; [reflexivity|].
      rewrite <- app_assoc in Hholds'. split; [exact Hholds'|].
      split; [now constructor|].
      cbn [fmap list_fmap]. change (list_fmap Rec.t Z Rec.Index records)
        with (Rec.Index <$> records).
      rewrite Hidx', Hrec, Hi1. cbn [length].
      rewrite (seqZ_cons (Logger.i l + 1)) by lia.
      do 2 f_equal; lia.
Qed.

(** After a run that started from the logger state [l] on a log file with
    the records 1, ..., [Logger.i l], the store streams from
    [Logger.i l + 1] exactly the records of the run. *)
Lemma fileStore_Iter_after_run (l l' : Logger.t) (st st' : fileStore.t)
    (records0 records : list Rec.t) (inputs : list (bytes * Z)) :
  file_holds st records0 → Forall wf_stored records0 →
  Rec.Index <$> records0 = seqZ 1 (Logger.i l) →
  0 ≤ Logger.i l → Logger.i l + Z.of_nat (length inputs) < 2 ^ 64 →
  Forall wf_input inputs → inputs ≠ [] →
  Appends l st inputs = (l', st', records, None) →
  fileStore.Iter st' (u64 (Logger.i l + 1)) = (records, None)
  ∧ fileStore.Iter st' 1 = (records0 ++ records, None).
Proof.
  intros Hholds Hwf Hidx Hi Hn Hin Hne Hrun.
  destruct (fileStore_run inputs l st records0 Hholds Hwf Hidx Hi Hn Hin)
    as (l2 & st2 & records2 & Hrun2 & Hholds2 & Hwf2 & Hidx2).
  rewrite Hrun in Hrun2. injection Hrun2 as <- <- <-.
  assert (Hlen : (length (records0 ++ records)
                  ≤ length (concat (fileStore.recordBytes <$> records0 ++ records)))%nat).
  { apply length_concat_recordBytes, wf_stored_record, Forall_app. done. }
  assert (Hall : Forall wf_stored (records0 ++ records)) by (apply Forall_app; done).
  unfold fileStore.Iter. unfold file_holds in Hholds2. rewrite Hholds2.
  rewrite !Iter_loop_records by done. split; f_equal.
  - destruct inputs as [|input inputs]; [done|].
    cbn [length] in Hn. rewrite u64_small by lia.
    rewrite filter_app, filter_none, filter_all; [reflexivity| |].
    + apply Forall_forall. intros r Hr.
      assert (Hk : Rec.Index r ∈ seqZ (Logger.i l + 1) (Z.of_nat (length (input :: inputs))))
        by (rewrite <- Hidx2; now apply list_elem_of_fmap_2).
      apply elem_of_seqZ in Hk. lia.
    + apply Forall_forall. intros r Hr.
      assert (Hk : Rec.Index r ∈ seqZ 1 (Logger.i l))
        by (rewrite <- Hidx; now apply list_elem_of_fmap_2).
      apply elem_of_seqZ in Hk. lia.
  - apply filter_all, Forall_forall. intros r Hr.
    apply elem_of_app in Hr as [Hr|Hr].
    + assert (Hk : Rec.Index r ∈ seqZ 1 (Logger.i l))
        by (rewrite <- Hidx; now apply list_elem_of_fmap_2).
      apply elem_of_seqZ in Hk. lia.
    + assert (Hk : Rec.Index r ∈ seqZ (Logger.i l + 1) (Z.of_nat (length inputs)))
        by (rewrite <- Hidx2; now apply list_elem_of_fmap_2).
      apply elem_of_seqZ in Hk. lia.
Qed.

Section RunPayload.
Context {St : Type} `{Store St}.

(** The records of a run carry the messages and timestamps of the calls. *)
Lemma Appends_payload (inputs : list (bytes * Z)) :
  ∀ (l l' : Logger.t) (st st' : St) (records : list Rec.t),
    Appends l st inputs = (l', st', records, None) →
    (λ r, (Rec.Msg r, Rec.TS r)) <$> records = inputs.
Proof.
  induction inputs as [|[msg ts] inputs IH]; intros l l' st st' records Hrun.
  - now injection Hrun as _ _ <-.
  - apply Appends_cons_success in Hrun as (l1 & st1 & e & records1 & _ & Hrun & ->).
    cbn [fmap list_fmap]. f_equal. exact (IH _ _ _ _ _ Hrun).
Qed.

End RunPayload.

(** X12: On a log file that holds the records 1, ..., [k] and with the logger
    at index [k], a run of appends (messages below 4 GiB, indices within
    [uint64]) never fails; afterwards [Iter(1)] streams the old records
    followed by one record per call, with the next indices in order and
    the message and timestamp of the call. *)
Theorem fileStore_run_is_read_back (l : Logger.t) (st : fileStore.t)
    (records0 : list Rec.t) (inputs : list (bytes * Z)) :
  file_holds st records0 → Forall wf_stored records0 →
  Rec.Index <$> records0 = seqZ 1 (Logger.i l) →
  0 ≤ Logger.i l → Logger.i l + Z.of_nat (length inputs) < 2 ^ 64 →
  Forall wf_input inputs →
  ∃ l' st' records,
    Appends l st inputs = (l', st', records, None)
    ∧ fileStore.Iter st' 1 = (records0 ++ records, None)
    ∧ Rec.Index <$> records = seqZ (Logger.i l + 1) (Z.of_nat (length inputs))
    ∧ (λ r, (Rec.Msg r, Rec.TS r)) <$> records = inputs.
Proof.
  intros Hholds Hwf Hidx Hi Hn Hin.
  destruct (fileStore_run inputs l st records0 Hholds Hwf Hidx Hi Hn Hin)
    as (l' & st' & records & Hrun & Hholds' & Hwf' & Hidx').
  exists l', st', records. split; [exact Hrun|].
  split; [|split; [exact Hidx' | exact (Appends_payload _ _ _ _ _ _ Hrun)]].
  unfold fileStore.Iter. unfold file_holds in Hholds'. rewrite Hholds'.
  assert (Hall : Forall wf_stored (records0 ++ records)) by (apply Forall_app; done).
  rewrite Iter_loop_records;
    [|done|now apply length_concat_recordBytes, wf_stored_record].
  f_equal. apply filter_all, Forall_forall. intros r Hr.
  apply elem_of_app in Hr as [Hr|Hr].
  - assert (Hk : Rec.Index r ∈ seqZ 1 (Logger.i l))
      by (rewrite <- Hidx; now apply list_elem_of_fmap_2).
    apply elem_of_seqZ in Hk. lia.
  - assert (Hk : Rec.Index r ∈ seqZ (Logger.i l + 1) (Z.of_nat (length inputs)))
      by (rewrite <- Hidx'; now apply list_elem_of_fmap_2).
    apply elem_of_seqZ in Hk. lia.
Qed.

Lemma sample_two_holds :
  file_holds sample_two_store sample_two_records
  ∧ Forall wf_stored sample_two_records
  ∧ Rec.Index <$> sample_two_records = seqZ 1 (Logger.i sample_two_logger).
Proof.
  split; [vm_compute; reflexivity|]. split; [|vm_compute; reflexivity].
  apply (bool_decide_unpack _). vm_compute. reflexivity.
Qed.

Lemma sample_inputs_wf : Forall wf_input (drop 2 sample_inputs).
Proof. apply (bool_decide_unpack _). vm_compute. reflexivity. Qed.

Lemma fileStore_run_is_read_back_witness :
  ∃ l' st' records,
    Appends sample_two_logger sample_two_store (drop 2 sample_inputs)
      = (l', st', records, None)
    ∧ fileStore.Iter st' 1 = (sample_two_records ++ records, None)
    ∧ Rec.Index <$> records = [3].
Proof.
  destruct sample_two_holds as (Hholds & Hwf & Hidx).
  assert (Hi : 0 ≤ Logger.i sample_two_logger) by (vm_compute; discriminate).
  assert (Hn : Logger.i sample_two_logger
               + Z.of_nat (length (drop 2 sample_inputs)) < 2 ^ 64)
    by (vm_compute; reflexivity).
  destruct (fileStore_run_is_read_back sample_two_logger sample_two_store
              sample_two_records (drop 2 sample_inputs) Hholds Hwf Hidx Hi Hn
              sample_inputs_wf)
    as (l' & st' & records & Hrun & Hiter & Hindices & _).
  exists l', st', records. split; [exact Hrun|]. split; [exact Hiter|].
  rewrite Hindices. vm_compute. reflexivity.
Defined.

(** ** The verifiers on the file store *)

Section VerifyAfterRun.
Context (l l' : Logger.t) (st st' : fileStore.t) (records0 records : list Rec.t)
        (inputs : list (bytes * Z)).
Hypothesis Hholds : file_holds st records0.
Hypothesis Hwf : Forall wf_stored records0.
Hypothesis Hidx : Rec.Index <$> records0 = seqZ 1 (Logger.i l).
Hypothesis Hi : 0 ≤ Logger.i l.
Hypothesis Hn : Logger.i l + Z.of_nat (length inputs) < 2 ^ 64.
Hypothesis Hin : Forall wf_input inputs.
Hypothesis Hne : inputs ≠ [].
Hypothesis Hinv : chain_inv l.
Hypothesis Hrun : Appends l st inputs = (l', st', records, None).
Hypothesis Hnz : tags_nonzero records = true.

(** What a verifier that starts from the state [l] finds in the store
    after the run: the records of the run, a chain that replays to the
    aggregate of the logger, and that aggregate in the tail slot. *)
Lemma fileStore_verify_after_run (use : bool) :
  store_Iter st' (u64 (Logger.i l + 1)) = (records, None)
  ∧ VerifyChain records (Logger.i l) (chain_key use l) (chain_tag use l) use
    = (chain_tag use l', None)
  ∧ store_Tail st'
    = (TailState.mk (Logger.i l') (Logger.tagV l') (Logger.tagT l'), true, None).
Proof.
  split; [|split].
  - exact (proj1 (fileStore_Iter_after_run l l' st st' records0 records inputs
                    Hholds Hwf Hidx Hi Hn Hin Hne Hrun)).
  - unfold VerifyChain.
    rewrite (Appends_replay use inputs l l' st st' records zero32 Hinv Hrun Hnz).
    now destruct inputs.
  - rewrite (Appends_tail l l' st st' inputs records Hrun). now destruct inputs.
Qed.

End VerifyAfterRun.

(** X13: Checkpoint verification on the file store: when the logger was in
    the state [l] (index [k], the file holding the records 1, ..., [k])
    and at least one more record was appended since, both verifiers accept
    the store from the checkpoint that [l] defines, that is the anchor
    [(k, A_k, μ_V,k, μ_T,k)] for the V-chain and [(k, B_k, μ_T,k)] for the
    T-chain. *)
Theorem fileStore_VerifyFromAnchor_accepts (l l' : Logger.t) (st st' : fileStore.t)
    (records0 records : list Rec.t) (inputs : list (bytes * Z)) :
  file_holds st records0 → Forall wf_stored records0 →
  Rec.Index <$> records0 = seqZ 1 (Logger.i l) →
  0 ≤ Logger.i l → Logger.i l + Z.of_nat (length inputs) < 2 ^ 64 →
  Forall wf_input inputs → inputs ≠ [] → chain_inv l →
  Appends l st inputs = (l', st', records, None) →
  tags_nonzero records = true →
  VerifyFromAnchor st'
    (Anchor.mk (Logger.i l) (Logger.keyV l) (Logger.tagV l) (Logger.tagT l)) = None
  ∧ TrustedVerifyFromAnchor st' (Logger.i l) (Logger.keyT l) (Logger.tagT l) = None.
Proof.
  intros Hholds Hwf Hidx Hi Hn Hin Hne Hinv Hrun Hnz.
  destruct (fileStore_verify_after_run l l' st st' records0 records inputs
              Hholds Hwf Hidx Hi Hn Hin Hne Hinv Hrun Hnz true) as (HiterV & HV & Htail).
  destruct (fileStore_verify_after_run l l' st st' records0 records inputs
              Hholds Hwf Hidx Hi Hn Hin Hne Hinv Hrun Hnz false) as (_ & HT & _).
  unfold VerifyFromAnchor, TrustedVerifyFromAnchor, VerifyFrom, VerifyFromTrusted.
  cbn [Anchor.Index Anchor.Key Anchor.TagV chain_key chain_tag] in *.
  rewrite HiterV, HV, HT, Htail. cbn [TailState.TagV TailState.TagT].
  rewrite !hmac_Equal_refl. split; reflexivity.
Qed.

Lemma fileStore_VerifyFromAnchor_accepts_witness :
  let st' := (Appends sample_two_logger sample_two_store (drop 2 sample_inputs)).1.1.2 in
  Anchor.mk (Logger.i sample_two_logger) (Logger.keyV sample_two_logger)
            (Logger.tagV sample_two_logger) (Logger.tagT sample_two_logger)
    = sample_tail_anchor
  ∧ store_AnchorAt st' 2 = (sample_tail_anchor, true, None)
  ∧ VerifyFromAnchor st' sample_tail_anchor = None.
Proof.
  intros st'.
  destruct sample_two_holds as (Hholds & Hwf & Hidx).
  assert (Ha : Anchor.mk (Logger.i sample_two_logger) (Logger.keyV sample_two_logger)
                 (Logger.tagV sample_two_logger) (Logger.tagT sample_two_logger)
               = sample_tail_anchor) by (vm_compute; reflexivity).
  assert (Hrun : Appends sample_two_logger sample_two_store (drop 2 sample_inputs)
                 = ((Appends sample_two_logger sample_two_store
                       (drop 2 sample_inputs)).1.1.1, st',
                    (Appends sample_two_logger sample_two_store
                       (drop 2 sample_inputs)).1.2, None))
    by (vm_compute; reflexivity).
  assert (Hi : 0 ≤ Logger.i sample_two_logger) by (vm_compute; discriminate).
  assert (Hn : Logger.i sample_two_logger
               + Z.of_nat (length (drop 2 sample_inputs)) < 2 ^ 64)
    by (vm_compute; reflexivity).
  assert (Hne : drop 2 sample_inputs ≠ []) by discriminate.
  assert (Hinv : chain_inv sample_two_logger)
    by (right; split; vm_compute; reflexivity).
  assert (Hnz : tags_nonzero (Appends sample_two_logger sample_two_store
                                (drop 2 sample_inputs)).1.2 = true)
    by (vm_compute; reflexivity).
  pose proof (fileStore_VerifyFromAnchor_accepts _ _ _ _ _ _ _ Hholds Hwf Hidx
                Hi Hn sample_inputs_wf Hne Hinv Hrun Hnz) as [HV _].
  split; [exact Ha|]. split; [vm_compute; reflexivity|].
  rewrite <- Ha. exact HV.
Defined.

(** X14: Full verification on the file store: after a non-empty run of a new
    logger on a new log file, [VerifyAll] with the initial key [B_0]
    accepts, and so does the semi-trusted verifier from the initial state
    [(0, A_0, 0)]; on a store without any record [VerifyAll] reports that
    the tail state is unavailable. *)
Theorem fileStore_VerifyAll_accepts (cfg : Config.t) (a0 b0 : bytes)
    (l' : Logger.t) (st' : fileStore.t) (records : list Rec.t)
    (inputs : list (bytes * Z)) :
  Forall wf_input inputs → inputs ≠ [] → Z.of_nat (length inputs) < 2 ^ 64 →
  Appends (fresh cfg a0 b0) fileStore.empty inputs = (l', st', records, None) →
  tags_nonzero records = true →
  VerifyAll st' b0 = None
  ∧ VerifyFromAnchor st' (Anchor.mk 0 a0 zero32 zero32) = None
  ∧ VerifyAll fileStore.empty b0 = Some (ENew "tail state unavailable").
Proof.
  intros Hin Hne Hn Hrun Hnz.
  assert (Hholds : file_holds fileStore.empty []) by reflexivity.
  destruct (fileStore_verify_after_run (fresh cfg a0 b0) l' fileStore.empty st' []
              records inputs Hholds ltac:(constructor) ltac:(reflexivity)
              ltac:(reflexivity) ltac:(exact Hn) Hin Hne (chain_inv_fresh _ _ _)
              Hrun Hnz true) as (Hiter & HV & Htail).
  destruct (fileStore_verify_after_run (fresh cfg a0 b0) l' fileStore.empty st' []
              records inputs Hholds ltac:(constructor) ltac:(reflexivity)
              ltac:(reflexivity) ltac:(exact Hn) Hin Hne (chain_inv_fresh _ _ _)
              Hrun Hnz false) as (_ & HT & _).
  cbn [fresh Logger.i Logger.keyV Logger.keyT Logger.tagV Logger.tagT
       chain_key chain_tag] in *.
  change (u64 (0 + 1)) with 1 in Hiter.
  unfold VerifyAll, VerifyFromAnchor, VerifyFrom, VerifyFromTrusted.
  cbn [Anchor.Index Anchor.Key Anchor.TagV].
  change (u64 (0 + 1)) with 1.
  rewrite Hiter, HV, HT, Htail. cbn [TailState.TagV TailState.TagT].
  rewrite !hmac_Equal_refl. repeat split.
Qed.

Lemma fileStore_VerifyAll_accepts_witness :
  VerifyAll sample_store sample_B0 = None
  ∧ VerifyFromAnchor sample_store (Anchor.mk 0 sample_A0 zero32 zero32) = None.
Proof.
  assert (Hrun : Appends (fresh (Config.mk 2 (Some sample_A0) (Some sample_B0))
                            sample_A0 sample_B0) fileStore.empty sample_inputs
                 = (sample_final, sample_store, sample_records, None))
    by (vm_compute; reflexivity).
  assert (Hin : Forall wf_input sample_inputs)
    by (apply (bool_decide_unpack _); vm_compute; reflexivity).
  assert (Hne : sample_inputs ≠ []) by discriminate.
  assert (Hn : Z.of_nat (length sample_inputs) < 2 ^ 64) by (vm_compute; reflexivity).
  assert (Hnz : tags_nonzero sample_records = true) by (vm_compute; reflexivity).
  pose proof (fileStore_VerifyAll_accepts _ _ _ _ _ _ _ Hin Hne Hn Hrun Hnz)
    as (HT & HV & _).
  split; [exact HT | exact HV].
Defined.

(** ** A whole session of the protocol *)

Section RunComposition.
Context {St : Type} `{Store St}.








End RunComposition.


(** ** Runs with a failed call *)

#[global] Instance sqliteTx_tail_law : StoreTailLaw sqliteTx.t.
Proof.
  intros st st' r tail anchor Hwf Happ.
  unfold store_Append, sqliteTx_Store, sqliteTx.Append in Happ.
  unfold store_Tail, sqliteTx_Store.
  destruct (sqliteTx.beginTx st) as [|[err|] outcomes].
  - destruct (sqliteStore.Append (sqliteTx.db st) r tail anchor) as [db' e] eqn:Hdb.
    injection Happ as <- ->. cbn [sqliteTx.db].
    exact (sqliteStore_tail_law _ _ _ _ _ Hwf Hdb).
  - discriminate.
  - destruct (sqliteStore.Append (sqliteTx.db st) r tail anchor) as [db' e] eqn:Hdb.
    injection Happ as <- ->. cbn [sqliteTx.db].
    exact (sqliteStore_tail_law _ _ _ _ _ Hwf Hdb).
Qed.

(** C1, at a failing input: the sample logger on a new SQLite database
    whose first transaction times out.  The first [Append] returns that
    error; the three calls after it succeed and the store holds their
    records 1, 2, 3 and the logger's tags in its tail slot.  From the seeds
    neither chain verifies these records: the failed call has left both keys
    hashed once more, and the records verify from the hashed seeds
    instead. *)
Theorem records_after_failed_Append_do_not_verify :
  let '(_, _, (_, err)) := sample_busy_failed in
  let '(l', st', records, errs) := sample_busy_run in
  err = Some (ENew "context deadline exceeded")
  ∧ errs = None
  ∧ Rec.Index <$> records = [1; 2; 3]
  ∧ store_Iter st' 1 = (records, None)
  ∧ store_Tail st' = (TailState.mk 3 (Logger.tagV l') (Logger.tagT l'), true, None)
  ∧ VerifyFrom records 0 sample_A0 zero32 = (zero32, Some ErrTagMismatch)
  ∧ VerifyFromTrusted records 0 sample_B0 zero32 = (zero32, Some ErrTagMismatch)
  ∧ VerifyAll st' sample_B0 = Some ErrTagMismatch
  ∧ VerifyFrom records 0 (sha256.Sum256 sample_A0) zero32 = (Logger.tagV l', None)
  ∧ VerifyFromTrusted records 0 (sha256.Sum256 sample_B0) zero32
    = (Logger.tagT l', None).
Proof.
  vm_compute. repeat split.
Qed.

(** C10, at two failing inputs.  On the store that already holds three
    records the sample logger's only call fails: after no successful append
    [GetInitialKeys] returns the seeds hashed once.  On the database whose
    first transaction times out, one failed and three successful calls
    give the seeds hashed four times, not three. *)
Theorem GetInitialKeys_counts_failed_Append :
  let '(l1, _, (_, err1)) := sample_failed in
  let '(l', _, records, errs) := sample_busy_run in
  err1 = Some (ENonContiguous 3 1)
  ∧ GetInitialKeys l1 = (sha256.Sum256 sample_A0, sha256.Sum256 sample_B0)
  ∧ GetInitialKeys l1 ≠ (sample_A0, sample_B0)
  ∧ errs = None
  ∧ length records = 3%nat
  ∧ GetInitialKeys l'
    = (Nat.iter 4 sha256.Sum256 sample_A0, Nat.iter 4 sha256.Sum256 sample_B0)
  ∧ GetInitialKeys l'
    ≠ (Nat.iter 3 sha256.Sum256 sample_A0, Nat.iter 3 sha256.Sum256 sample_B0).
Proof.
  vm_compute. repeat split; discriminate.
Qed.

Section CallLemmas.
Context {St : Type} `{Store St}.

Lemma Append_keys (l : Logger.t) (st : St) (msg : bytes) (ts : Z) :
  Logger.keyV (Append l st msg ts).1.1 = sha256.Sum256 (Logger.keyV l)
  ∧ Logger.keyT (Append l st msg ts).1.1 = sha256.Sum256 (Logger.keyT l).
Proof.
  unfold Append, Append_prepare. cbn [fst snd].
  destruct (store_Append st _ _ _) as [st1 [err|]]; split; reflexivity.
Qed.

(** X17: every call of [Append] hashes both keys once, whether the store
    accepts the record or not: after [m] calls [GetInitialKeys] returns
    the keys the logger started with, each hashed [m] times. *)
Theorem GetInitialKeys_after_calls (inputs : list (bytes * Z)) (l : Logger.t)
    (st : St) :
  GetInitialKeys (Calls l st inputs).1.1
  = (Nat.iter (length inputs) sha256.Sum256 (Logger.keyV l),
     Nat.iter (length inputs) sha256.Sum256 (Logger.keyT l)).
Proof.
  revert l st. induction inputs as [|[msg ts] inputs IH]; intros l st.
  - reflexivity.
  - cbn [Calls length]. pose proof (Append_keys l st msg ts) as [HV HT].
    destruct (Append l st msg ts) as [[l1 st1] [e err]].
    cbn [fst] in HV, HT. specialize (IH l1 st1).
    destruct (Calls l1 st1 inputs) as [[l2 st2] errs].
    cbn [fst] in IH |- *. rewrite IH, HV, HT, !Nat.iter_succ_r. reflexivity.
Qed.

End CallLemmas.
